(** * Planning-poker room engine: shallow embedding and verification

    The development follows [internal/models/models.go] and
    [internal/engine/engine.go].  Every engine method takes the engine's
    write lock for its whole body, so a call is one atomic transition of the
    room table; it is modelled as a function from the table before the call
    to the table after it, together with the Go return values.

    Go holds rooms and players through pointers.  The engine files every
    [*Player] under one key, its own private id (see [keyed] below), so the
    maps are kept here as maps of records.  [GetServer] and
    [CleanupOldRooms], which read a room and expire idle rooms by
    [LastAccess], take no part in the properties below. *)

From stdpp Require Import base strings gmap list sorting numbers pretty.
From Stdlib Require Import Ascii String ZArith Lia.

Local Open Scope string_scope.
Local Open Scope list_scope.
Local Open Scope Z_scope.

(** ** Go primitives used by the engine *)

Module golang.

(** [uuid.UUID] is a 16-byte array; it is read as a 128-bit number, and
    [uuid.Nil] is the all-zero value. *)
Abbreviation UUID := N (only parsing).
Definition uuid_Nil : UUID := 0%N.

(** Go's [int] on the 64-bit targets the server is built for: arithmetic
    wraps around in two's complement. *)
Definition intMin : Z := - 2 ^ 63.
Definition intMax : Z := 2 ^ 63 - 1.
Definition intWrap (z : Z) : Z := (z + 2 ^ 63) mod 2 ^ 64 - 2 ^ 63.
Definition intAdd (a b : Z) : Z := intWrap (a + b).

(** [sort.Ints] followed by indexing the last element, [ids[len(ids)-1]].
    The index is only evaluated on a non-empty slice; [0] stands for the
    out-of-range panic that the guard [len(server.Players) > 0] excludes. *)
Definition sort_Ints (ids : list Z) : list Z := merge_sort Z.le ids.
Definition lastElem (ids : list Z) : Z := default 0 (last ids).

(** [fmt.Sprintf("%d", n)]: the decimal form, with a minus sign for
    negative numbers. *)
Definition Sprintf_d (n : Z) : string := pretty n.

(** [strings.Split(s, sep)] for a one-byte separator: the tokens between
    occurrences of [sep]; the empty string yields one empty token. *)
Fixpoint Split (s : string) (sep : ascii) : list string :=
  match s with
  | EmptyString => [EmptyString]
  | String c rest =>
      if Ascii.eqb c sep then EmptyString :: Split rest sep
      else match Split rest sep with
           | tok :: toks => String c tok :: toks
           | [] => [String c EmptyString]
           end
  end.

(** [strings.TrimSpace].  Go decodes the string as UTF-8 and removes the
    leading and trailing code points for which [unicode.IsSpace] holds:
    U+0009..U+000D, U+0020, U+0085, U+00A0, U+1680, U+2000..U+200A, U+2028,
    U+2029, U+202F, U+205F and U+3000.  A byte sequence decodes to one of
    them exactly when it is that code point's UTF-8 encoding, so trimming
    is removal of these byte sequences from both ends. *)
Definition bytesOf (codes : list nat) : list ascii := ascii_of_nat <$> codes.

Definition spaceEncodings : list (list ascii) :=
  bytesOf <$>
    [ [9]; [10]; [11]; [12]; [13]; [32]
    ; [194; 133]; [194; 160]
    ; [225; 154; 128]
    ; [226; 128; 128]; [226; 128; 129]; [226; 128; 130]; [226; 128; 131]
    ; [226; 128; 132]; [226; 128; 133]; [226; 128; 134]; [226; 128; 135]
    ; [226; 128; 136]; [226; 128; 137]; [226; 128; 138]
    ; [226; 128; 168]; [226; 128; 169]; [226; 128; 175]
    ; [226; 129; 159]
    ; [227; 128; 128] ]%nat.

Fixpoint stripPrefix (pre s : list ascii) : option (list ascii) :=
  match pre, s with
  | [], _ => Some s
  | a :: pre', b :: s' => if Ascii.eqb a b then stripPrefix pre' s' else None
  | _ :: _, [] => None
  end.

(** The rest of [s] after one leading white-space code point, if any. *)
Fixpoint stripOne (encs : list (list ascii)) (s : list ascii) : option (list ascii) :=
  match encs with
  | [] => None
  | enc :: encs' =>
      match stripPrefix enc s with
      | Some rest => Some rest
      | None => stripOne encs' s
      end
  end.

Fixpoint trimLeftFuel (encs : list (list ascii)) (fuel : nat) (s : list ascii) : list ascii :=
  match fuel with
  | O => s
  | S fuel' =>
      match stripOne encs s with
      | Some rest => trimLeftFuel encs fuel' rest
      | None => s
      end
  end.

(** Each removal consumes at least one byte, so [length s] rounds reach the
    first byte that starts no white space. *)
Definition trimLeft (encs : list (list ascii)) (s : list ascii) : list ascii :=
  trimLeftFuel encs (List.length s) s.

Definition TrimLeftSpace (s : list ascii) : list ascii := trimLeft spaceEncodings s.
Definition TrimRightSpace (s : list ascii) : list ascii :=
  rev (trimLeft (@rev ascii <$> spaceEncodings) (rev s)).

Definition TrimSpace (s : string) : string :=
  string_of_list_ascii (TrimRightSpace (TrimLeftSpace (list_ascii_of_string s))).

(** Times and durations.  [time.Now()] attaches a reading of the
    monotonic clock, and [Time.Sub] of two times that carry one is the
    difference of the readings, saturated at the ends of [Duration]
    ([subMono] in package time).  A time is kept as its reading and a
    [Duration] as its count, both int64 numbers of nanoseconds. *)
Definition minDuration : Z := - 2 ^ 63.
Definition maxDuration : Z := 2 ^ 63 - 1.
Definition Time_Sub (t u : Z) : Z :=
  let d := intWrap (t - u) in
  if (d <? 0) && (u <? t) then maxDuration
  else if (0 <? d) && (t <? u) then minDuration
  else d.
Definition Minute : Z := 60 * 1000000000.
Definition Hour : Z := 60 * Minute.


Definition startsWith (encs : list (list ascii)) (s : list ascii) : Prop :=
  ∃ enc rest, enc ∈ encs ∧ s = enc ++ rest.
Definition endsWith (encs : list (list ascii)) (s : list ascii) : Prop :=
  ∃ enc pre, enc ∈ encs ∧ s = pre ++ enc.


(** A string with white space neither in front nor at the end. *)
Definition trimmed (s : string) : Prop :=
  ¬ startsWith spaceEncodings (list_ascii_of_string s) ∧
  ¬ endsWith spaceEncodings (list_ascii_of_string s).

End golang.

(** ** internal/models *)

Module models.
Import golang.

(** [PlayerType] and [PlayerMode] are string types: the transport layer
    converts whatever text the client sent, so any string can occur. *)
Abbreviation PlayerType := string (only parsing).
Abbreviation PlayerMode := string (only parsing).
Definition Participant : PlayerType := "Participant".
Definition Observer : PlayerType := "Observer".
Definition Awake : PlayerMode := "Awake".
Definition Asleep : PlayerMode := "Asleep".

Record Player := mkPlayer {
  Id : string;            (* private id *)
  PublicId : Z;
  RecoveryId : UUID;
  Name : string;
  Type_ : PlayerType;
  Mode : PlayerMode
}.

Record PokerSession := mkPokerSession {
  CardSet : list string;
  Votes : gmap string string;   (* key is PublicId as string *)
  IsShown : bool
}.

(** The room's own [Id] field is named [ServerId] here, [Id] being taken
    by [Player].  [LastAccess] is a point in time, in nanoseconds. *)
Record PokerServer := mkPokerServer {
  ServerId : UUID;
  Players : gmap string Player;   (* key is private id *)
  CurrentSession : PokerSession;
  LastAccess : Z
}.

Definition withVotes (s : PokerSession) (v : gmap string string) : PokerSession :=
  {| CardSet := CardSet s; Votes := v; IsShown := IsShown s |}.
Definition withIsShown (s : PokerSession) (b : bool) : PokerSession :=
  {| CardSet := CardSet s; Votes := Votes s; IsShown := b |}.
Definition withPlayers (s : PokerServer) (ps : gmap string Player) : PokerServer :=
  {| ServerId := ServerId s; Players := ps;
     CurrentSession := CurrentSession s; LastAccess := LastAccess s |}.
Definition withSession (s : PokerServer) (cs : PokerSession) : PokerServer :=
  {| ServerId := ServerId s; Players := Players s;
     CurrentSession := cs; LastAccess := LastAccess s |}.

Definition withLastAccess (s : PokerServer) (t : Z) : PokerServer :=
  {| ServerId := ServerId s; Players := Players s;
     CurrentSession := CurrentSession s; LastAccess := t |}.
Definition withType (p : Player) (pType : PlayerType) : Player :=
  {| Id := Id p; PublicId := PublicId p; RecoveryId := RecoveryId p;
     Name := Name p; Type_ := pType; Mode := Mode p |}.

End models.

(** ** internal/engine *)

Module engine.
Import golang models.

(** The engine's errors, one constructor per [errors.New] in the source;
    [Error] gives the message, as Go's [err.Error()] does. *)
Inductive error :=
| ErrCardSetEmpty
| ErrRoomNotFound
| ErrPlayerNotFound
| ErrObserversCannotVote
| ErrVoteRevealed
| ErrRedactRevealed.

Definition Error (err : error) : string :=
  match err with
  | ErrCardSetEmpty => "card set cannot be empty"
  | ErrRoomNotFound => "room not found"
  | ErrPlayerNotFound => "player not found"
  | ErrObserversCannotVote => "observers cannot vote"
  | ErrVoteRevealed => "cannot change vote once revealed"
  | ErrRedactRevealed => "cannot redact vote once revealed"
  end.

(** The error taxonomy of the design document. *)
Inductive ErrorKind := InvalidInput | NotFound | Forbidden | Locked.

Definition kind (err : error) : ErrorKind :=
  match err with
  | ErrCardSetEmpty => InvalidInput
  | ErrRoomNotFound | ErrPlayerNotFound => NotFound
  | ErrObserversCannotVote => Forbidden
  | ErrVoteRevealed | ErrRedactRevealed => Locked
  end.

(** A Go result pair [(value, error)]: either the value with a nil error,
    or the error (the accompanying zero value carries no information). *)
Inductive result (A : Type) :=
| Ok (a : A)
| Err (err : error).
Arguments Ok {A} a.
Arguments Err {A} err.

Record Engine := mkEngine {
  servers : gmap UUID PokerServer
}.

Definition NewEngine : Engine := {| servers := ∅ |}.

(** Writing through the [*PokerServer] stored under [id]. *)
Definition store (e : Engine) (id : UUID) (server : PokerServer) : Engine :=
  {| servers := <[id := server]> (servers e) |}.

(** The loop of [CreateRoom] over the tokens. *)
Definition cleanCards (cards : list string) : list string :=
  fold_left
    (fun (cleanedCards : list string) c =>
       let trimmed := TrimSpace c in
       if bool_decide (trimmed ≠ EmptyString) then cleanedCards ++ [trimmed]
       else cleanedCards)
    cards [].

(** [CreateRoom]; [id] is the value [uuid.New()] draws and [now] the value
    of [time.Now()], both read after the card set has been accepted. *)
Definition CreateRoom (id : UUID) (now : Z) (desiredCardSet : string) (e : Engine)
  : Engine * result UUID :=
  let cards := Split desiredCardSet ","%char in
  let cleanedCards := cleanCards cards in
  if bool_decide (List.length cleanedCards = 0%nat) then (e, Err ErrCardSetEmpty)
  else
    (store e id
       {| ServerId := id;
          Players := ∅;
          CurrentSession := {| CardSet := cleanedCards; Votes := ∅; IsShown := false |};
          LastAccess := now |},
     Ok id).

(** [GetServer]; [now] is the value of [time.Now()].  The pointer returned
    is the stored room, read here after the write to [LastAccess]. *)
Definition GetServer (now : Z) (id : UUID) (e : Engine) : Engine * option PokerServer :=
  match servers e !! id with
  | Some s => (store e id (withLastAccess s now), Some (withLastAccess s now))
  | None => (e, None)
  end.

(** The test of [CleanupOldRooms] on one room. *)
Definition idleTooLong (now maxAge : Z) (s : PokerServer) : bool :=
  maxAge <? Time_Sub now (LastAccess s).

(** [CleanupOldRooms]: the loop deletes, while ranging over the table,
    every room that passes the test; the rooms that fail it stay. *)
Definition CleanupOldRooms (now maxAge : Z) (e : Engine) : Engine :=
  {| servers := filter (fun kv => idleTooLong now maxAge kv.2 = false) (servers e) |}.

Section Range.

(** Go leaves the iteration order of [range] over a map unspecified.
    [rangeOrder] is the order the runtime picks; all that is known of it is
    that it enumerates the entries of the map, each once. *)
Context (rangeOrder : gmap string Player → list (string * Player)).
Hypothesis rangeOrder_perm : ∀ m, rangeOrder m ≡ₚ map_to_list m.

(** A [range] loop that returns at the first entry satisfying [cond]. *)
Definition rangeFind (cond : Player → bool) (m : gmap string Player)
  : option (string * Player) :=
  List.find (fun kp => cond kp.2) (rangeOrder m).

(** The ids collected by the second loop of [JoinRoom]. *)
Definition publicIds (m : gmap string Player) : list Z :=
  (fun kp => PublicId kp.2) <$> rangeOrder m.

Definition nextPublicId (m : gmap string Player) : Z :=
  if bool_decide (0 < size m)%nat
  then intAdd (lastElem (sort_Ints (publicIds m))) 1
  else 1.

Definition JoinRoom (id recoveryId : UUID) (playerName privateId : string)
    (pType : PlayerType) (e : Engine) : Engine * result Player :=
  match servers e !! id with
  | None => (e, Err ErrRoomNotFound)
  | Some server =>
      match rangeFind (fun p => bool_decide (RecoveryId p = recoveryId)) (Players server) with
      | Some (_, p) =>
          (* Update existing player *)
          let p' := {| Id := privateId; PublicId := PublicId p;
                       RecoveryId := RecoveryId p; Name := playerName;
                       Type_ := pType; Mode := Awake |} in
          (store e id
             (withPlayers server (<[privateId := p']> (delete (Id p) (Players server)))),
           Ok p')
      | None =>
          (* New player *)
          let player := {| Id := privateId; PublicId := nextPublicId (Players server);
                           RecoveryId := recoveryId; Name := playerName;
                           Type_ := pType; Mode := Awake |} in
          (store e id (withPlayers server (<[privateId := player]> (Players server))),
           Ok player)
      end
  end.

Definition Vote (serverId : UUID) (privateId vote : string) (e : Engine)
  : Engine * option error :=
  match servers e !! serverId with
  | None => (e, Some ErrRoomNotFound)
  | Some server =>
      match Players server !! privateId with
      | None => (e, Some ErrPlayerNotFound)
      | Some player =>
          if bool_decide (Type_ player = Observer) then (e, Some ErrObserversCannotVote)
          else if IsShown (CurrentSession server) then (e, Some ErrVoteRevealed)
          else
            let cs := CurrentSession server in
            (store e serverId
               (withSession server
                  (withVotes cs (<[Sprintf_d (PublicId player) := vote]> (Votes cs)))),
             None)
      end
  end.

Definition UnVote (serverId : UUID) (privateId : string) (e : Engine)
  : Engine * option error :=
  match servers e !! serverId with
  | None => (e, Some ErrRoomNotFound)
  | Some server =>
      if IsShown (CurrentSession server) then (e, Some ErrRedactRevealed)
      else
        match Players server !! privateId with
        | None => (e, Some ErrPlayerNotFound)
        | Some player =>
            let cs := CurrentSession server in
            (store e serverId
               (withSession server
                  (withVotes cs (delete (Sprintf_d (PublicId player)) (Votes cs)))),
             None)
        end
  end.

Definition ClearVotes (serverId : UUID) (e : Engine) : Engine * option error :=
  match servers e !! serverId with
  | None => (e, Some ErrRoomNotFound)
  | Some server =>
      (store e serverId
         (withSession server (withIsShown (withVotes (CurrentSession server) ∅) false)),
       None)
  end.

Definition ShowVotes (serverId : UUID) (e : Engine) : Engine * option error :=
  match servers e !! serverId with
  | None => (e, Some ErrRoomNotFound)
  | Some server =>
      (store e serverId (withSession server (withIsShown (CurrentSession server) true)),
       None)
  end.

Definition KickPlayer (serverId : UUID) (kickedPublicId : Z) (e : Engine)
  : Engine * result string :=
  match servers e !! serverId with
  | None => (e, Err ErrRoomNotFound)
  | Some server =>
      match rangeFind (fun p => bool_decide (PublicId p = kickedPublicId)) (Players server) with
      | Some (id, p) =>
          let cs := CurrentSession server in
          (store e serverId
             (withSession (withPlayers server (delete id (Players server)))
                (withVotes cs (delete (Sprintf_d (PublicId p)) (Votes cs)))),
           Ok id)
      | None => (e, Err ErrPlayerNotFound)
      end
  end.

(** [LeaveRoom] reports failure through its boolean, not through an error. *)
Definition LeaveRoom (serverId : UUID) (privateId : string) (e : Engine)
  : Engine * (string * bool) :=
  match servers e !! serverId with
  | None => (e, (EmptyString, false))
  | Some server =>
      match Players server !! privateId with
      | None => (e, (EmptyString, false))
      | Some player =>
          let name := Name player in
          let cs := CurrentSession server in
          (store e serverId
             (withSession (withPlayers server (delete privateId (Players server)))
                (withVotes cs (delete (Sprintf_d (PublicId player)) (Votes cs)))),
           (name, true))
      end
  end.

(** *** Calls and traces

    The eight mutating methods of [Engine], as the transport layer invokes
    them, and what each returns. *)
Inductive Call :=
| CallCreateRoom (id : UUID) (now : Z) (desiredCardSet : string)
| CallJoinRoom (id recoveryId : UUID) (playerName privateId : string) (pType : PlayerType)
| CallVote (serverId : UUID) (privateId vote : string)
| CallUnVote (serverId : UUID) (privateId : string)
| CallShowVotes (serverId : UUID)
| CallClearVotes (serverId : UUID)
| CallKickPlayer (serverId : UUID) (kickedPublicId : Z)
| CallLeaveRoom (serverId : UUID) (privateId : string).

Inductive Reply :=
| ReplyCreated (r : result UUID)
| ReplyJoined (r : result Player)
| ReplyError (err : option error)
| ReplyKicked (r : result string)
| ReplyLeft (name : string) (ok : bool).

Definition replyWith {A} (wrap : A → Reply) (r : Engine * A) : Engine * Reply :=
  (r.1, wrap r.2).

Definition call (c : Call) (e : Engine) : Engine * Reply :=
  match c with
  | CallCreateRoom id now desiredCardSet =>
      replyWith ReplyCreated (CreateRoom id now desiredCardSet e)
  | CallJoinRoom id recoveryId playerName privateId pType =>
      replyWith ReplyJoined (JoinRoom id recoveryId playerName privateId pType e)
  | CallVote serverId privateId vote =>
      replyWith ReplyError (Vote serverId privateId vote e)
  | CallUnVote serverId privateId =>
      replyWith ReplyError (UnVote serverId privateId e)
  | CallShowVotes serverId => replyWith ReplyError (ShowVotes serverId e)
  | CallClearVotes serverId => replyWith ReplyError (ClearVotes serverId e)
  | CallKickPlayer serverId kickedPublicId =>
      replyWith ReplyKicked (KickPlayer serverId kickedPublicId e)
  | CallLeaveRoom serverId privateId =>
      replyWith (fun r => ReplyLeft r.1 r.2) (LeaveRoom serverId privateId e)
  end.

(** The error a reply carries; [LeaveRoom] signals failure by [ok = false]. *)
Definition failed (r : Reply) : bool :=
  match r with
  | ReplyCreated (Err _) | ReplyJoined (Err _) | ReplyKicked (Err _) => true
  | ReplyError (Some _) => true
  | ReplyLeft _ false => true
  | _ => false
  end.

End Range.

(** A trace of calls.  The runtime is free to pick another order at every
    call; [orders n] is the one in force at the [n]-th call of the trace. *)
Fixpoint run (orders : nat → gmap string Player → list (string * Player))
    (cs : list Call) (e : Engine) : Engine :=
  match cs with
  | [] => e
  | c :: cs' => run (fun n => orders (S n)) cs' (call (orders O) c e).1
  end.

(** *** The transport's handling of an action (internal/server)

    [handleAction] first asks for the name of the client's player and drops
    every action but a join when that name is ["Unknown"]. *)
Definition getPlayerName (now : Z) (roomId : UUID) (playerId : string) (e : Engine)
  : Engine * string :=
  if bool_decide (playerId = EmptyString) then (e, "Unknown")
  else
    match GetServer now roomId e with
    | (e', None) => (e', "Unknown")
    | (e', Some server) =>
        match Players server !! playerId with
        | None => (e', "Unknown")
        | Some player => (e', Name player)
        end
    end.

(** The changeType case of [handleAction], for a payload that decoded to
    [pType], from the name check up to and including the [UnVote] call,
    run without a call of another connection in between.  It is the one
    place outside the engine that writes to a room: [player.Type = ...].
    [t0] and [t1] are the readings of [time.Now()] in the two [GetServer]
    calls.  What follows in the handler logs, broadcasts and reads the
    room once more. *)
Definition changeType (t0 t1 : Z) (roomId : UUID) (playerId : string)
    (pType : PlayerType) (e : Engine) : Engine :=
  let named := getPlayerName t0 roomId playerId e in
  if bool_decide (named.2 = "Unknown") then named.1
  else
    match GetServer t1 roomId named.1 with
    | (e1, None) => e1
    | (e1, Some server) =>
        match Players server !! playerId with
        | None => e1
        | Some player =>
            let e2 := store e1 roomId
                        (withPlayers server
                           (<[playerId := withType player pType]> (Players server))) in
            (* Clear vote if they become an observer *)
            if bool_decide (pType = Observer) then (UnVote roomId playerId e2).1 else e2
        end
    end.

(** *** Everything that acts on the room table

    The eight calls, each with the iteration order in force, the two
    remaining methods of [Engine], and the changeType action. *)
Inductive Event :=
| EvCall (rangeOrder : gmap string Player → list (string * Player)) (c : Call)
| EvGetServer (now : Z) (id : UUID)
| EvCleanupOldRooms (now maxAge : Z)
| EvChangeType (t0 t1 : Z) (roomId : UUID) (playerId : string) (pType : PlayerType).

Definition step (ev : Event) (e : Engine) : Engine :=
  match ev with
  | EvCall rangeOrder c => (call rangeOrder c e).1
  | EvGetServer now id => (GetServer now id e).1
  | EvCleanupOldRooms now maxAge => CleanupOldRooms now maxAge e
  | EvChangeType t0 t1 roomId playerId pType => changeType t0 t1 roomId playerId pType e
  end.

Definition steps (evs : list Event) (e : Engine) : Engine :=
  fold_left (fun e ev => step ev e) evs e.

(** The order of an event enumerates the map it ranges over. *)
Definition orderly (ev : Event) : Prop :=
  match ev with
  | EvCall rangeOrder _ => ∀ m, rangeOrder m ≡ₚ map_to_list m
  | _ => True
  end.

(** The room a call addresses. *)
Definition target (c : Call) : UUID :=
  match c with
  | CallCreateRoom id _ _ | CallJoinRoom id _ _ _ _ => id
  | CallVote serverId _ _ | CallUnVote serverId _ | CallShowVotes serverId
  | CallClearVotes serverId | CallKickPlayer serverId _ | CallLeaveRoom serverId _ =>
      serverId
  end.

(** ** Predicates of the statements *)

(** Every record is filed under its own private id.  The engine keeps it
    so, which is why a stored [*Player] may be read as the record itself. *)
Definition keyed (m : gmap string Player) : Prop :=
  map_Forall (fun k p => Id p = k) m.

Definition sameRecovery (recoveryId : UUID) (kp : string * Player) : Prop :=
  RecoveryId kp.2 = recoveryId.

#[local] Instance sameRecovery_dec recoveryId kp : Decision (sameRecovery recoveryId kp).
Proof. unfold sameRecovery. apply _. Defined.

Definition allKeyed (e : Engine) : Prop :=
  map_Forall (fun _ server => keyed (Players server)) (servers e).



(** Every vote is recorded under the public id of a player present. *)
Definition votesOwned (server : PokerServer) : Prop :=
  ∀ key v, Votes (CurrentSession server) !! key = Some v →
           ∃ k p, Players server !! k = Some p ∧ Sprintf_d (PublicId p) = key.

Definition allOwned (e : Engine) : Prop :=
  map_Forall (fun _ server => votesOwned server) (servers e).

(** A join that arrives under a private id no player of the room holds. *)
Definition joinsFresh (e : Engine) (c : Call) : Prop :=
  match c with
  | CallJoinRoom id _ _ privateId _ =>
      ∀ server, servers e !! id = Some server → Players server !! privateId = None
  | _ => True
  end.

(** Every join of the trace arrives under an unused private id. *)
Fixpoint joinsFreshAlong (orders : nat → gmap string Player → list (string * Player))
    (cs : list Call) (e : Engine) : Prop :=
  match cs with
  | [] => True
  | c :: cs' =>
      joinsFresh e c ∧ joinsFreshAlong (fun n => orders (S n)) cs' (call (orders O) c e).1
  end.

(** ** Rooms, step by step *)

(** What one event can do to a room that is there before and after it:
    re-key a record on reconnect, add a new player, change the session or
    the access time, remove a player, or change a player's type. *)
Inductive roomStep (s : PokerServer) : PokerServer → Prop :=
| step_rekey k p privateId playerName pType :
    Players s !! k = Some p →
    roomStep s
      (withPlayers s
         (<[privateId := {| Id := privateId; PublicId := PublicId p;
                            RecoveryId := RecoveryId p; Name := playerName;
                            Type_ := pType; Mode := Awake |}]>
            (delete (Id p) (Players s))))
| step_join player :
    Mode player = Awake →
    (∀ k p, Players s !! k = Some p → RecoveryId p ≠ RecoveryId player) →
    (Players s = ∅ ∧ PublicId player = 1 ∨
     ∃ k p, Players s !! k = Some p ∧
            (∀ k' p', Players s !! k' = Some p' → PublicId p' ≤ PublicId p) ∧
            PublicId player = intAdd (PublicId p) 1) →
    roomStep s (withPlayers s (<[Id player := player]> (Players s)))
| step_session cs t :
    CardSet cs = CardSet (CurrentSession s) →
    roomStep s {| ServerId := ServerId s; Players := Players s;
                  CurrentSession := cs; LastAccess := t |}
| step_remove k cs :
    CardSet cs = CardSet (CurrentSession s) →
    roomStep s {| ServerId := ServerId s; Players := delete k (Players s);
                  CurrentSession := cs; LastAccess := LastAccess s |}
| step_retype k p pType cs t :
    Players s !! k = Some p →
    CardSet cs = CardSet (CurrentSession s) →
    roomStep s {| ServerId := ServerId s;
                  Players := <[k := withType p pType]> (Players s);
                  CurrentSession := cs; LastAccess := t |}.

(** A room as [CreateRoom] files it. *)
Definition created (id : UUID) (s : PokerServer) : Prop :=
  ServerId s = id ∧ Players s = ∅ ∧
  Votes (CurrentSession s) = ∅ ∧ IsShown (CurrentSession s) = false ∧
  CardSet (CurrentSession s) ≠ [] ∧
  ∃ desiredCardSet,
    CardSet (CurrentSession s) = cleanCards (Split desiredCardSet ","%char).

(** No two players of the room carry the same recovery id, or the same
    public id. *)
Definition uniqueRecovery (m : gmap string Player) : Prop :=
  ∀ k1 k2 p1 p2, m !! k1 = Some p1 → m !! k2 = Some p2 →
                 RecoveryId p1 = RecoveryId p2 → k1 = k2.
Definition uniquePublicId (m : gmap string Player) : Prop :=
  ∀ k1 k2 p1 p2, m !! k1 = Some p1 → m !! k2 = Some p2 →
                 PublicId p1 = PublicId p2 → k1 = k2.


(** The players of the room are filed under their private ids and have
    distinct public ids between 1 and [n]. *)
Definition idsWithin (n : nat) (s : PokerServer) : Prop :=
  keyed (Players s) ∧
  (∀ k p, Players s !! k = Some p → 1 ≤ PublicId p ≤ Z.of_nat n) ∧
  uniquePublicId (Players s).

(** No Observer of the room has a vote entry. *)
Definition observersVoteless (s : PokerServer) : Prop :=
  ∀ k p, Players s !! k = Some p → Type_ p = Observer →
         Votes (CurrentSession s) !! Sprintf_d (PublicId p) = None.

(** *** The broadcast hub (internal/server)

    [Hub.Run] is one goroutine that takes, one at a time, whatever arrives
    on its Register, Unregister and Broadcast channels.  Each arrival is a
    transition of the hub. *)

(** A [*Client]: [Addr] stands for the pointer; [RoomId] is set when the
    connection is made and not written afterwards. *)
Record Client := mkClient {
  Addr : positive;
  RoomId : UUID
}.

#[global] Instance Client_eq_dec : EqDecision Client.
Proof. solve_decision. Defined.

#[global] Instance Client_countable : Countable Client.
Proof.
  apply (inj_countable' (fun c => (Addr c, RoomId c)) (fun ar => mkClient ar.1 ar.2)).
  by intros [].
Defined.

(** A client's [Send] channel, [make(chan []byte, 256)]: the messages
    waiting in it, oldest first, and whether it has been closed. *)
Record Chan := mkChan {
  buffered : list string;
  closed : bool
}.

Definition sendCapacity : nat := 256.
Definition newChan : Chan := {| buffered := []; closed := false |}.

(** The hub's [Rooms] (a [map[*Client]bool] that only ever holds [true] is
    a set) together with the [Send] channels of the clients it has touched;
    a client not in [Sends] has its channel as [HandleWS] made it. *)
Record Hub := mkHub {
  Rooms : gmap UUID (gset Client);
  Sends : gmap Client Chan
}.

Definition NewHub : Hub := {| Rooms := ∅; Sends := ∅ |}.

Definition sendOf (h : Hub) (c : Client) : Chan := default newChan (Sends h !! c).

(** The Go runtime's panics that the hub can raise. *)
Inductive Ran :=
| Running (h : Hub)
| Panic (msg : string).

(** [case client := <-h.Register] *)
Definition register (client : Client) (h : Hub) : Hub :=
  {| Rooms := <[RoomId client := {[client]} ∪ default ∅ (Rooms h !! RoomId client)]>
                (Rooms h);
     Sends := Sends h |}.

(** [close(client.Send)] *)
Definition closeSend (client : Client) (h : Hub) : Ran :=
  if closed (sendOf h client) then Panic "close of closed channel"
  else Running {| Rooms := Rooms h;
                  Sends := <[client := {| buffered := buffered (sendOf h client);
                                          closed := true |}]> (Sends h) |}.

(** [delete(h.Rooms[roomId], client)]; deleting from the nil map of a room
    without entry does nothing. *)
Definition dropMember (roomId : UUID) (client : Client) (h : Hub) : Hub :=
  {| Rooms := alter (fun room => room ∖ {[client]}) roomId (Rooms h);
     Sends := Sends h |}.

(** [case client := <-h.Unregister] *)
Definition unregister (client : Client) (h : Hub) : Ran :=
  match Rooms h !! RoomId client with
  | None => Running h
  | Some _ =>
      match closeSend client (dropMember (RoomId client) client h) with
      | Panic msg => Panic msg
      | Running h' =>
          if bool_decide (size (default ∅ (Rooms h' !! RoomId client)) = 0%nat)
          then Running {| Rooms := delete (RoomId client) (Rooms h'); Sends := Sends h' |}
          else Running h'
      end
  end.

(** One round of the loop of the Broadcast case: the non-blocking send of
    [msg], and on a full channel the close and the removal. *)
Definition offer (roomId : UUID) (msg : string) (client : Client) (h : Hub) : Ran :=
  if closed (sendOf h client) then Panic "send on closed channel"
  else if bool_decide (List.length (buffered (sendOf h client)) < sendCapacity)%nat
  then Running {| Rooms := Rooms h;
                  Sends := <[client := {| buffered := buffered (sendOf h client) ++ [msg];
                                          closed := false |}]> (Sends h) |}
  else
    match closeSend client h with
    | Panic m => Panic m
    | Running h' => Running (dropMember roomId client h')
    end.

Definition andThen (r : Ran) (f : Hub → Ran) : Ran :=
  match r with
  | Running h => f h
  | Panic msg => Panic msg
  end.

Section MemberOrder.

(** The order in which [range] visits the clients of a room. *)
Context (memberOrder : gset Client → list Client).

(** [case event := <-h.Broadcast]; [msg] is the marshalled message. *)
Definition broadcast (roomId : UUID) (msg : string) (h : Hub) : Ran :=
  foldl (fun r client => andThen r (offer roomId msg client))
        (Running h) (memberOrder (default ∅ (Rooms h !! roomId))).

Inductive HubEvent :=
| Register (client : Client)
| Unregister (client : Client)
| Broadcast (roomId : UUID) (msg : string).

Definition hubStep (ev : HubEvent) (h : Hub) : Ran :=
  match ev with
  | Register client => Running (register client h)
  | Unregister client => unregister client h
  | Broadcast roomId msg => broadcast roomId msg h
  end.

Definition hubRun (evs : list HubEvent) (h : Hub) : Ran :=
  foldl (fun r ev => andThen r (hubStep ev)) (Running h) evs.

End MemberOrder.

(** What a broadcast does to the channel of a client it reaches. *)
Definition offered (msg : string) (ch : Chan) : Chan :=
  if bool_decide (List.length (buffered ch) < sendCapacity)%nat
  then {| buffered := buffered ch ++ [msg]; closed := false |}
  else {| buffered := buffered ch; closed := true |}.

Definition isFull (h : Hub) (c : Client) : Prop :=
  (sendCapacity ≤ List.length (buffered (sendOf h c)))%nat.

#[global] Instance isFull_dec h c : Decision (isFull h c).
Proof. unfold isFull. apply _. Defined.

(** Every client the hub has in a room has its channel open and sits in
    the room of its own [RoomId]. *)
Definition membersOpen (h : Hub) : Prop :=
  ∀ roomId room client,
    Rooms h !! roomId = Some room → client ∈ room →
    closed (sendOf h client) = false ∧ RoomId client = roomId.

(** Clients are registered while their channel is open, as [HandleWS]
    does right after making it. *)
Fixpoint registersOpen (memberOrder : gset Client → list Client)
    (evs : list HubEvent) (h : Hub) : Prop :=
  match evs with
  | [] => True
  | ev :: evs' =>
      match ev with
      | Register client => closed (sendOf h client) = false
      | _ => True
      end ∧
      match hubStep memberOrder ev h with
      | Running h' => registersOpen memberOrder evs' h'
      | Panic _ => True
      end
  end.

(** ** Scenario data

    Concrete rooms for the worked runs, with the canonical enumeration of
    the player map as the iteration order.  In each run at most one entry
    satisfies the condition of a loop, so the order does not matter. *)

Definition canonicalOrder : gmap string Player → list (string * Player) := map_to_list.

Definition canonicalOrders : nat → gmap string Player → list (string * Player) :=
  fun _ => canonicalOrder.

Definition room : UUID := 7%N.
Definition alice : UUID := 1%N.
Definition bob : UUID := 2%N.
Definition carol : UUID := 3%N.

Definition playerA : Player :=
  {| Id := "c1"; PublicId := 1; RecoveryId := alice; Name := "A";
     Type_ := Participant; Mode := Awake |}.
Definition playerB : Player :=
  {| Id := "c2"; PublicId := 2; RecoveryId := bob; Name := "B";
     Type_ := Observer; Mode := Awake |}.

Definition session0 : PokerSession :=
  {| CardSet := ["1"; "2"; "3"; "5"; "8"]; Votes := ∅; IsShown := false |}.

Definition roomWith (players : gmap string Player) (cs : PokerSession) : Engine :=
  {| servers := {[ room := {| ServerId := room; Players := players;
                              CurrentSession := cs; LastAccess := 0 |} ]} |}.

(** The room right after creation, with A alone, and with A and B. *)
Definition opened : Engine := roomWith ∅ session0.
Definition aliceIn : Engine := roomWith {[ "c1" := playerA ]} session0.
Definition bothIn : Engine := roomWith {[ "c1" := playerA; "c2" := playerB ]} session0.
(** A has voted 5, and then the votes have been shown. *)
Definition voted : Engine :=
  roomWith {[ "c1" := playerA; "c2" := playerB ]} (withVotes session0 {[ "1" := "5" ]}).
Definition shown : Engine :=
  roomWith {[ "c1" := playerA; "c2" := playerB ]}
    (withIsShown (withVotes session0 {[ "1" := "5" ]}) true).

(** Further scenario data: the room record of [roomWith], the order that
    ranges over a map back to front, a short history, and two clients of
    the room, the second with a full channel. *)
Definition roomRecord (players : gmap string Player) (cs : PokerSession) : PokerServer :=
  {| ServerId := room; Players := players; CurrentSession := cs; LastAccess := 0 |}.

Definition reverseOrder : gmap string Player → list (string * Player) :=
  fun m => reverse (map_to_list m).

Definition history : list Event :=
  [ EvCall canonicalOrder (CallCreateRoom room 0 "1,2,3,5,8");
    EvCall canonicalOrder (CallJoinRoom room alice "A" "c1" Participant);
    EvCall reverseOrder (CallJoinRoom room bob "B" "c2" Observer);
    EvGetServer 5 room;
    EvChangeType 6 7 room "c2" Participant ].

Definition historyRoom : PokerServer :=
  {| ServerId := room;
     Players := {[ "c1" := playerA; "c2" := withType playerB Participant ]};
     CurrentSession := session0; LastAccess := 7 |}.

Definition client1 : Client := {| Addr := 1; RoomId := room |}.
Definition client2 : Client := {| Addr := 2; RoomId := room |}.

Definition hubWith (sends : gmap Client Chan) : Hub :=
  {| Rooms := {[ room := {[ client1; client2 ]} ]}; Sends := sends |}.

Definition fullChan : Chan := {| buffered := replicate sendCapacity "m"; closed := false |}.

(** ** Properties of the string primitives *)

Section GoStrings.















End GoStrings.

(** ** Properties of the engine *)

Section Properties.

Context (rangeOrder : gmap string Player → list (string * Player)).
Hypothesis rangeOrder_perm : ∀ m, rangeOrder m ≡ₚ map_to_list m.

(** *** The early-return loops *)

Lemma rangeFind_Some cond m k p :
  rangeFind rangeOrder cond m = Some (k, p) → m !! k = Some p ∧ cond p = true.
Proof using rangeOrder_perm.
  unfold rangeFind. intros Hf. apply find_some in Hf as [Hin Hc].
  split; [|exact Hc].
  apply list_elem_of_In in Hin. rewrite rangeOrder_perm in Hin.
  by apply elem_of_map_to_list in Hin.
Qed.

Lemma rangeFind_None cond m k p :
  rangeFind rangeOrder cond m = None → m !! k = Some p → cond p = false.
Proof using rangeOrder_perm.
  unfold rangeFind. intros Hf Hk.
  eapply (find_none _ _ Hf (k, p)).
  apply list_elem_of_In. rewrite rangeOrder_perm.
  by apply elem_of_map_to_list.
Qed.

Lemma rangeFind_found cond m k p :
  m !! k = Some p → cond p = true → is_Some (rangeFind rangeOrder cond m).
Proof using rangeOrder_perm.
  intros Hk Hc. destruct (rangeFind rangeOrder cond m) eqn:Hf; [eauto|].
  rewrite (rangeFind_None _ _ _ _ Hf Hk) in Hc. discriminate.
Qed.

(** *** CreateRoom *)


(** *** Allocation of public ids *)

Lemma lastElem_sorted (l : list Z) :
  StronglySorted Z.le l → l ≠ [] →
  lastElem l ∈ l ∧ ∀ x, x ∈ l → x ≤ lastElem l.
Proof.
  unfold lastElem. induction l as [|a l IH]; intros Hs Hne; [done|].
  apply StronglySorted_inv in Hs as [Hs Ha].
  destruct l as [|b l].
  - simpl. split; [apply list_elem_of_singleton; done|].
    intros x ->%list_elem_of_singleton. lia.
  - rewrite last_cons_cons. destruct IH as [Hin Hmax]; [done..|]. split.
    + by right.
    + intros x [->|Hx]%elem_of_cons; [|by apply Hmax].
      rewrite Forall_forall in Ha. by apply Ha.
Qed.

Lemma lastElem_sort_Ints (ids : list Z) :
  ids ≠ [] →
  lastElem (sort_Ints ids) ∈ ids ∧ ∀ x, x ∈ ids → x ≤ lastElem (sort_Ints ids).
Proof.
  intros Hne. unfold sort_Ints.
  pose proof (merge_sort_Permutation Z.le ids) as Hp.
  assert (StronglySorted Z.le (merge_sort Z.le ids)) as Hsorted
    by (apply StronglySorted_merge_sort; apply _).
  revert Hp Hsorted. generalize (merge_sort Z.le ids). intros sorted Hp Hsorted.
  destruct (lastElem_sorted sorted Hsorted) as [Hin Hmax].
  - intros ->. by apply Permutation_nil in Hp.
  - split; [by rewrite <- Hp|]. intros x Hx. apply Hmax. by rewrite Hp.
Qed.

Lemma elem_of_publicIds m z :
  z ∈ publicIds rangeOrder m ↔ ∃ k p, m !! k = Some p ∧ PublicId p = z.
Proof using rangeOrder_perm.
  unfold publicIds. rewrite list_elem_of_fmap. split.
  - intros [[k p] [-> Hin]]. rewrite rangeOrder_perm in Hin.
    apply elem_of_map_to_list in Hin. eauto.
  - intros (k & p & Hk & <-). exists (k, p). split; [done|].
    rewrite rangeOrder_perm. by apply elem_of_map_to_list.
Qed.

Lemma nextPublicId_empty : nextPublicId rangeOrder ∅ = 1.
Proof. unfold nextPublicId. by rewrite map_size_empty. Qed.

(** In a room with players, the next id is one more than the largest id
    present, wrapped to the range of [int]. *)
Lemma nextPublicId_max m :
  m ≠ ∅ →
  ∃ k p, m !! k = Some p ∧
         (∀ k' p', m !! k' = Some p' → PublicId p' ≤ PublicId p) ∧
         nextPublicId rangeOrder m = intAdd (PublicId p) 1.
Proof using rangeOrder_perm.
  intros Hne. unfold nextPublicId.
  apply map_size_non_empty_iff in Hne.
  rewrite bool_decide_eq_true_2 by lia.
  destruct (lastElem_sort_Ints (publicIds rangeOrder m)) as [Hin Hmax].
  - intros Hnil. apply map_size_ne_0_lookup in Hne as (k & p & Hk).
    assert (PublicId p ∈ publicIds rangeOrder m) as Hp
      by (apply elem_of_publicIds; eauto).
    rewrite Hnil in Hp. by apply not_elem_of_nil in Hp.
  - apply elem_of_publicIds in Hin as (k & p & Hk & Hp).
    exists k, p. split; [done|]. split; [|by rewrite Hp].
    intros k' p' Hk'. rewrite Hp. apply Hmax, elem_of_publicIds. eauto.
Qed.

Lemma intAdd_in_range (a : Z) : intMin ≤ a < intMax → intAdd a 1 = a + 1.
Proof.
  unfold intAdd, intWrap, intMin, intMax. intros Ha.
  rewrite Z.mod_small; lia.
Qed.

(** C1, as the code has it: a join that is not a reconnect gives the new
    player public id 1 in an empty room and otherwise one more than the
    largest public id among the players present, so (short of the largest
    [int]) an id strictly above, and distinct from, that of every player
    present.  Ids of players who have gone are not kept anywhere. *)
Theorem JoinRoom_new_publicId (id recoveryId : UUID) (playerName privateId : string)
    (pType : PlayerType) (e : Engine) (server : PokerServer) :
  servers e !! id = Some server →
  (∀ k p, Players server !! k = Some p → RecoveryId p ≠ recoveryId) →
  (∀ k p, Players server !! k = Some p → intMin ≤ PublicId p < intMax) →
  ∃ player,
    JoinRoom rangeOrder id recoveryId playerName privateId pType e
      = (store e id (withPlayers server (<[privateId := player]> (Players server))),
         Ok player) ∧
    RecoveryId player = recoveryId ∧
    (Players server = ∅ → PublicId player = 1) ∧
    (Players server ≠ ∅ →
       ∃ k p, Players server !! k = Some p ∧ PublicId player = PublicId p + 1) ∧
    (∀ k p, Players server !! k = Some p → PublicId p < PublicId player).
Proof using rangeOrder_perm.
  intros Hs Hrec Hrange. unfold JoinRoom. rewrite Hs.
  destruct (rangeFind _ _ _) as [[k p]|] eqn:Hf.
  { apply rangeFind_Some in Hf as [Hk Hc]. apply bool_decide_eq_true in Hc.
    by destruct (Hrec k p Hk). }
  eexists. split; [reflexivity|]. simpl. split; [done|].
  destruct (decide (Players server = ∅)) as [Hempty|Hne].
  - rewrite Hempty, nextPublicId_empty. split; [done|]. split; [done|].
    intros k p. by rewrite lookup_empty.
  - destruct (nextPublicId_max _ Hne) as (k & p & Hk & Hmax & ->).
    rewrite intAdd_in_range by eauto.
    split; [done|]. split; [eauto|].
    intros k' p' Hk'. specialize (Hmax k' p' Hk'). lia.
Qed.

(** *** Reconnecting *)

Lemma rekey_size (recoveryId : UUID) (m : gmap string Player) k p privateId p' :
  m !! k = Some p → RecoveryId p = recoveryId → RecoveryId p' = recoveryId →
  (size (filter (sameRecovery recoveryId) (<[privateId := p']> (delete k m)))
     ≤ size (filter (sameRecovery recoveryId) m))%nat.
Proof.
  intros Hk Hp Hp'.
  rewrite map_filter_insert_True by done.
  rewrite map_filter_delete.
  assert (filter (sameRecovery recoveryId) m !! k = Some p) as HF
    by (by apply map_lookup_filter_Some).
  pose proof (map_size_delete_Some k (filter (sameRecovery recoveryId) m)
                ltac:(eauto)) as Hd.
  pose proof (map_size_insert privateId p'
                (delete k (filter (sameRecovery recoveryId) m))) as Hi.
  pose proof (map_size_ne_0_lookup_2 (filter (sameRecovery recoveryId) m) k
                ltac:(eauto)) as Hpos.
  destruct (delete k (filter (sameRecovery recoveryId) m) !! privateId);
    simpl in Hi; lia.
Qed.

(** C2: when some player of the room carries the recovery id supplied,
    [JoinRoom] re-keys one such record: it takes the old private id out of
    the player map, files the record under the new private id with the new
    private id, name and type and with mode Awake, keeps its public id and
    recovery id, leaves the session (so every vote) and every other player
    as they were, and does not add to the players carrying that recovery
    id. *)
Theorem JoinRoom_reconnect (id recoveryId : UUID) (playerName privateId : string)
    (pType : PlayerType) (e : Engine) (server : PokerServer) (k0 : string) (p0 : Player) :
  servers e !! id = Some server →
  keyed (Players server) →
  Players server !! k0 = Some p0 →
  RecoveryId p0 = recoveryId →
  ∃ k p server',
    Players server !! k = Some p ∧ RecoveryId p = recoveryId ∧
    let p' := {| Id := privateId; PublicId := PublicId p; RecoveryId := recoveryId;
                 Name := playerName; Type_ := pType; Mode := Awake |} in
    JoinRoom rangeOrder id recoveryId playerName privateId pType e
      = (store e id server', Ok p') ∧
    Players server' = <[privateId := p']> (delete k (Players server)) ∧
    Players server' !! privateId = Some p' ∧
    (k ≠ privateId → Players server' !! k = None) ∧
    (∀ k', k' ≠ k → k' ≠ privateId → Players server' !! k' = Players server !! k') ∧
    CurrentSession server' = CurrentSession server ∧
    (size (filter (sameRecovery recoveryId) (Players server'))
       ≤ size (filter (sameRecovery recoveryId) (Players server)))%nat.
Proof using rangeOrder_perm.
  intros Hs Hkeyed Hk0 Hp0. unfold JoinRoom. rewrite Hs.
  destruct (rangeFind_found (fun p => bool_decide (RecoveryId p = recoveryId))
              (Players server) k0 p0 Hk0) as [[k p] Hf].
  { by apply bool_decide_eq_true. }
  rewrite Hf. apply rangeFind_Some in Hf as [Hk Hc].
  apply bool_decide_eq_true in Hc.
  rewrite (Hkeyed k p Hk).
  exists k, p. eexists. split; [done|]. split; [done|]. simpl.
  rewrite Hc. split; [reflexivity|]. simpl. split; [done|].
  split; [by rewrite lookup_insert_eq|].
  split; [intros Hne; by rewrite lookup_insert_ne, lookup_delete_eq|].
  split; [intros k' H1 H2; by rewrite lookup_insert_ne, lookup_delete_ne|].
  split; [done|].
  by eapply rekey_size.
Qed.

(** *** Vote *)


(** *** UnVote *)

(** C4, as the code has it: in a known room whose votes are not shown,
    [UnVote] for a private id that matches no player reports the
    "player not found" error (kind NotFound) and leaves the table as it
    was; for a known player it succeeds and deletes the entry under the
    player's public id, touching nothing else. *)
Theorem UnVote_not_shown (serverId : UUID) (privateId : string) (e : Engine)
    (server : PokerServer) :
  servers e !! serverId = Some server →
  IsShown (CurrentSession server) = false →
  (Players server !! privateId = None →
     UnVote serverId privateId e = (e, Some ErrPlayerNotFound) ∧
     kind ErrPlayerNotFound = NotFound) ∧
  (∀ player, Players server !! privateId = Some player →
     ∃ server',
       UnVote serverId privateId e = (store e serverId server', None) ∧
       Votes (CurrentSession server')
         = delete (Sprintf_d (PublicId player)) (Votes (CurrentSession server)) ∧
       Votes (CurrentSession server') !! Sprintf_d (PublicId player) = None ∧
       IsShown (CurrentSession server') = false ∧
       CardSet (CurrentSession server') = CardSet (CurrentSession server) ∧
       Players server' = Players server).
Proof.
  intros Hs Hshown. unfold UnVote. rewrite Hs, Hshown. split.
  - intros ->. done.
  - intros player ->. eexists. split; [reflexivity|]. simpl.
    by rewrite lookup_delete_eq.
Qed.

(** *** ClearVotes *)


(** *** Failure is a no-op *)

(** C7: whichever of the eight methods is called, if it reports failure
    (a non-nil error, or [false] from [LeaveRoom]) the room table after the
    call is the table before it. *)
Theorem failed_call_leaves_table (c : Call) (e : Engine) :
  failed (call rangeOrder c e).2 = true → (call rangeOrder c e).1 = e.
Proof.
  destruct c; simpl.
  - unfold CreateRoom. by case_bool_decide.
  - unfold JoinRoom. destruct (servers e !! id); [|done].
    by destruct (rangeFind _ _ _) as [[? ?]|].
  - unfold Vote. destruct (servers e !! serverId); [|done].
    destruct (Players _ !! privateId); [|done].
    case_bool_decide; [done|]. by destruct (IsShown _).
  - unfold UnVote. destruct (servers e !! serverId); [|done].
    destruct (IsShown _); [done|]. by destruct (Players _ !! privateId).
  - unfold ShowVotes. by destruct (servers e !! serverId).
  - unfold ClearVotes. by destruct (servers e !! serverId).
  - unfold KickPlayer. destruct (servers e !! serverId); [|done].
    by destruct (rangeFind _ _ _) as [[? ?]|].
  - unfold LeaveRoom. destruct (servers e !! serverId); [|done].
    by destruct (Players _ !! privateId).
Qed.

(** *** Records stay filed under their own private id *)

(** Case analysis along the branches of a call. *)
Ltac call_cases :=
  unfold CreateRoom, JoinRoom, Vote, UnVote, ShowVotes, ClearVotes,
    KickPlayer, LeaveRoom;
  repeat match goal with
    | |- context [match servers ?e !! ?i with _ => _ end] =>
        destruct (servers e !! i) eqn:?; simpl
    | |- context [match rangeFind ?o ?c ?m with _ => _ end] =>
        destruct (rangeFind o c m) as [[? ?]|] eqn:?; simpl
    | |- context [match Players ?s !! ?i with _ => _ end] =>
        destruct (Players s !! i) eqn:?; simpl
    | |- context [if IsShown ?s then _ else _] => destruct (IsShown s) eqn:?; simpl
    | |- context [bool_decide ?P] => destruct (bool_decide P) eqn:?; simpl
    end.

Lemma call_allKeyed c e : allKeyed e → allKeyed (call rangeOrder c e).1.
Proof.
  unfold allKeyed, keyed. intros Hall.
  destruct c; simpl; call_cases; try done;
    (apply map_Forall_insert_2; [simpl|done]);
    try (by eapply (Hall _ _));
    try (apply map_Forall_empty);
    try (apply map_Forall_delete; by eapply (Hall _ _));
    (apply map_Forall_insert_2; [done|]);
    try (apply map_Forall_delete); by eapply (Hall _ _).
Qed.

(** *** Votes and their owners

    A vote entry keeps an owner through every call, except through a join
    that arrives under a private id another player holds: that join
    replaces the holder's record and leaves the holder's vote behind. *)

Lemma store_allOwned e id server :
  allOwned e → votesOwned server → allOwned (store e id server).
Proof. intros He Hs. by apply map_Forall_insert_2. Qed.

Lemma call_allOwned c e :
  allKeyed e → joinsFresh e c → allOwned e → allOwned (call rangeOrder c e).1.
Proof using rangeOrder_perm.
  intros Hkeyed Hfresh Hown. destruct c; simpl.
  - unfold CreateRoom. case_bool_decide; [done|]. simpl.
    apply store_allOwned; [done|]. intros key v. simpl. by rewrite lookup_empty.
  - unfold JoinRoom. destruct (servers e !! id) as [server|] eqn:Hs; [|done].
    simpl in Hfresh. specialize (Hfresh server Hs).
    pose proof (Hown _ _ Hs) as Hsrv. specialize (Hkeyed _ _ Hs). simpl in *.
    destruct (rangeFind _ _ _) as [[k p]|] eqn:Hf; simpl;
      (apply store_allOwned; [done|]); intros key v Hv; simpl in *;
      destruct (Hsrv key v Hv) as (kq & q & Hq & Hkey).
    + apply rangeFind_Some in Hf as [Hk _].
      rewrite (Hkeyed k p Hk).
      destruct (decide (kq = k)) as [->|Hne].
      * assert (q = p) as -> by congruence.
        eexists privateId, _. split; [apply lookup_insert_eq|done].
      * exists kq, q. split; [|done].
        rewrite lookup_insert_ne by congruence. by rewrite lookup_delete_ne.
    + exists kq, q. split; [|done]. rewrite lookup_insert_ne by congruence. done.
  - unfold Vote. destruct (servers e !! serverId) as [server|] eqn:Hs; [|done].
    pose proof (Hown _ _ Hs) as Hsrv.
    destruct (Players server !! privateId) as [player|] eqn:Hp; [|done].
    case_bool_decide; [done|]. destruct (IsShown _); [done|]. simpl.
    apply store_allOwned; [done|]. intros key v. simpl.
    intros [[<- _]|[_ Hv]]%lookup_insert_Some; [eauto|by eapply Hsrv].
  - unfold UnVote. destruct (servers e !! serverId) as [server|] eqn:Hs; [|done].
    pose proof (Hown _ _ Hs) as Hsrv. destruct (IsShown _); [done|].
    destruct (Players server !! privateId) as [player|] eqn:Hp; [|done]. simpl.
    apply store_allOwned; [done|]. intros key v. simpl.
    intros [_ Hv]%lookup_delete_Some. by eapply Hsrv.
  - unfold ShowVotes. destruct (servers e !! serverId) as [server|] eqn:Hs; [|done].
    simpl. apply store_allOwned; [done|]. exact (Hown _ _ Hs).
  - unfold ClearVotes. destruct (servers e !! serverId) as [server|] eqn:Hs; [|done].
    simpl. apply store_allOwned; [done|]. intros key v. simpl. by rewrite lookup_empty.
  - unfold KickPlayer. destruct (servers e !! serverId) as [server|] eqn:Hs; [|done].
    pose proof (Hown _ _ Hs) as Hsrv.
    destruct (rangeFind _ _ _) as [[k p]|] eqn:Hf; [|done]. simpl.
    apply rangeFind_Some in Hf as [Hk _].
    apply store_allOwned; [done|]. intros key v. simpl.
    intros [Hkey Hv]%lookup_delete_Some.
    destruct (Hsrv key v Hv) as (kq & q & Hq & Hqkey).
    exists kq, q. split; [|done]. rewrite lookup_delete_ne; [done|].
    intros <-. congruence.
  - unfold LeaveRoom. destruct (servers e !! serverId) as [server|] eqn:Hs; [|done].
    pose proof (Hown _ _ Hs) as Hsrv.
    destruct (Players server !! privateId) as [player|] eqn:Hp; [|done]. simpl.
    apply store_allOwned; [done|]. intros key v. simpl.
    intros [Hkey Hv]%lookup_delete_Some.
    destruct (Hsrv key v Hv) as (kq & q & Hq & Hqkey).
    exists kq, q. split; [|done]. rewrite lookup_delete_ne; [done|].
    intros <-. congruence.
Qed.

(** *** The reveal gate *)



End Properties.

(** ** Properties of traces *)

Lemma run_allKeyed orders cs e : allKeyed e → allKeyed (run orders cs e).
Proof.
  revert orders e. induction cs as [|c cs IH]; intros orders e He; [done|].
  simpl. by apply IH, call_allKeyed.
Qed.

Lemma NewEngine_allKeyed : allKeyed NewEngine.
Proof. apply map_Forall_empty. Qed.

Lemma NewEngine_allOwned : allOwned NewEngine.
Proof. apply map_Forall_empty. Qed.

(** From the empty engine, as long as every join arrives under a private
    id that no player of the room holds, no vote is left without its
    player, whatever orders the runtime picks. *)
Lemma run_allOwned orders cs e :
  (∀ n m, orders n m ≡ₚ map_to_list m) →
  allKeyed e → allOwned e → joinsFreshAlong orders cs e →
  allOwned (run orders cs e).
Proof.
  intros Hperm. revert orders e Hperm.
  induction cs as [|c cs IH]; intros orders e Hperm Hk Ho Hfresh; [done|].
  destruct Hfresh as [Hc Hcs]. simpl. apply IH.
  - intros n m. apply Hperm.
  - by apply call_allKeyed.
  - by apply call_allOwned.
  - done.
Qed.



(** ** Worked scenarios *)

Lemma canonicalOrder_perm m : canonicalOrder m ≡ₚ map_to_list m.
Proof. done. Qed.

Example scenario_reached :
  run canonicalOrders [CallCreateRoom room 0 "1,2,3,5,8"] NewEngine = opened ∧
  run canonicalOrders [CallJoinRoom room alice "A" "c1" Participant] opened = aliceIn ∧
  run canonicalOrders [CallJoinRoom room bob "B" "c2" Observer] aliceIn = bothIn ∧
  run canonicalOrders [CallVote room "c1" "5"] bothIn = voted ∧
  run canonicalOrders [CallShowVotes room] voted = shown.
Proof. repeat split; vm_compute; reflexivity. Qed.

(** Scenarios 2 to 4 of the design document. *)
Example scenario_votes :
  Vote room "c2" "3" voted = (voted, Some ErrObserversCannotVote) ∧
  UnVote room "c1" shown = (shown, Some ErrRedactRevealed) ∧
  (ClearVotes room shown).1 = bothIn ∧
  (Vote room "c1" "8" bothIn).1
    = roomWith {[ "c1" := playerA; "c2" := playerB ]} (withVotes session0 {[ "1" := "8" ]}).
Proof. repeat split; vm_compute; reflexivity. Qed.

(** C1, counterexample: B joins and gets public id 2; B is kicked; C, a
    different person with another recovery id, joins and gets public id 2
    as well.  The id is allocated twice and the allocation did not grow. *)
Lemma publicId_reused_after_kick :
  ∃ e2 pB e3 e4 pC,
    JoinRoom canonicalOrder room bob "B" "c2" Participant aliceIn = (e2, Ok pB) ∧
    KickPlayer canonicalOrder room (PublicId pB) e2 = (e3, Ok "c2") ∧
    JoinRoom canonicalOrder room carol "C" "c3" Participant e3 = (e4, Ok pC) ∧
    RecoveryId pC ≠ RecoveryId pB ∧
    PublicId pC = PublicId pB.
Proof.
  do 5 eexists. split; [vm_compute; reflexivity|].
  split; [vm_compute; reflexivity|].
  split; [vm_compute; reflexivity|]. by vm_compute.
Qed.

Lemma JoinRoom_new_publicId_witness :
  ∃ player,
    (JoinRoom canonicalOrder room bob "B" "c2" Observer aliceIn).2 = Ok player ∧
    PublicId player = 2.
Proof.
  destruct (JoinRoom_new_publicId canonicalOrder canonicalOrder_perm
              room bob "B" "c2" Observer aliceIn
              {| ServerId := room; Players := {[ "c1" := playerA ]};
                 CurrentSession := session0; LastAccess := 0 |})
    as (player & Hjoin & _ & _ & Hnext & _).
  - vm_compute; reflexivity.
  - intros k p Hk. simpl in Hk. apply lookup_singleton_Some in Hk as [<- <-].
    vm_compute. discriminate.
  - intros k p Hk. simpl in Hk. apply lookup_singleton_Some in Hk as [<- <-].
    vm_compute. split; [discriminate|reflexivity].
  - exists player. rewrite Hjoin. split; [reflexivity|].
    destruct Hnext as (k & p & Hk & ->).
    + simpl. apply (map_non_empty_singleton (M:=gmap string)).
    + simpl in Hk. apply lookup_singleton_Some in Hk as [<- <-]. reflexivity.
Defined.

Lemma JoinRoom_reconnect_witness :
  ∃ e' p',
    JoinRoom canonicalOrder room alice "A2" "c9" Observer voted = (e', Ok p') ∧
    PublicId p' = 1 ∧ Id p' = "c9" ∧
    ∃ server', servers e' !! room = Some server' ∧
               Players server' !! "c1" = None ∧
               Votes (CurrentSession server') !! "1" = Some "5".
Proof.
  destruct (JoinRoom_reconnect canonicalOrder canonicalOrder_perm
              room alice "A2" "c9" Observer voted
              {| ServerId := room; Players := {[ "c1" := playerA; "c2" := playerB ]};
                 CurrentSession := withVotes session0 {[ "1" := "5" ]}; LastAccess := 0 |}
              "c1" playerA)
    as (k & p & server' & Hk & Hp & Hjoin & _ & _ & Hold & _ & Hsession & _).
  - vm_compute; reflexivity.
  - apply (bool_decide_unpack _). vm_compute. exact I.
  - vm_compute; reflexivity.
  - reflexivity.
  - assert (k = "c1" ∧ p = playerA) as [-> ->].
    { simpl in Hk. destruct (decide (k = "c1")) as [->|Hne].
      - rewrite lookup_insert_eq in Hk. by simplify_eq.
      - rewrite lookup_insert_ne in Hk by done.
        apply lookup_singleton_Some in Hk as [<- <-]. discriminate. }
    eexists _, _. split; [exact Hjoin|]. split; [reflexivity|]. split; [reflexivity|].
    exists server'. split; [apply lookup_insert_eq|].
    split; [by apply Hold|]. by rewrite Hsession.
Defined.


(** C4, counterexample: in the freshly created room, whose votes are not
    shown and which has no player, [UnVote] for an unknown private id
    returns an error rather than nil. *)
Lemma UnVote_unknown_player_is_an_error :
  (∃ server, servers opened !! room = Some server ∧
             IsShown (CurrentSession server) = false ∧
             Players server !! "ghost" = None) ∧
  (UnVote room "ghost" opened).2 ≠ None.
Proof.
  split.
  - eexists. split; [vm_compute; reflexivity|]. by vm_compute.
  - by vm_compute.
Qed.

Lemma UnVote_not_shown_witness :
  UnVote room "ghost" voted = (voted, Some ErrPlayerNotFound) ∧
  (UnVote room "c1" voted).1 = bothIn.
Proof.
  destruct (UnVote_not_shown room "ghost" voted
              {| ServerId := room; Players := {[ "c1" := playerA; "c2" := playerB ]};
                 CurrentSession := withVotes session0 {[ "1" := "5" ]}; LastAccess := 0 |})
    as [Hghost _].
  - vm_compute; reflexivity.
  - reflexivity.
  - split; [apply Hghost; vm_compute; reflexivity|].
    vm_compute; reflexivity.
Defined.





Lemma failed_call_leaves_table_witness :
  failed (call canonicalOrder (CallVote room "c2" "3") voted).2 = true ∧
  (call canonicalOrder (CallVote room "c2" "3") voted).1 = voted.
Proof.
  split; [vm_compute; reflexivity|].
  apply (failed_call_leaves_table canonicalOrder (CallVote room "c2" "3") voted).
  vm_compute; reflexivity.
Defined.

(** C3, failing run: A joins as Participant and votes 5, then joins again
    with the same recovery id as Observer.  The record is re-keyed with
    type Observer while the vote under its public id stays. *)
Theorem observer_keeps_vote_after_rejoin :
  ∃ server p,
    servers (run canonicalOrders
               [CallCreateRoom room 0 "1,2,3,5,8";
                CallJoinRoom room alice "A" "c1" Participant;
                CallVote room "c1" "5";
                CallJoinRoom room alice "A" "c9" Observer] NewEngine) !! room
      = Some server ∧
    Players server !! "c9" = Some p ∧
    Type_ p = Observer ∧
    Votes (CurrentSession server) !! Sprintf_d (PublicId p) = Some "5".
Proof.
  eexists _, _. split; [vm_compute; reflexivity|].
  split; [vm_compute; reflexivity|]. split; vm_compute; reflexivity.
Qed.

(** C10, failing run: A joins on connection c1 and votes 5; a join with
    another recovery id arrives under the same private id c1.  The new
    record replaces A's in the player map, A's vote stays, and no player
    present has public id 1. *)
Theorem vote_outlives_replaced_player :
  ∃ server pB,
    servers (run canonicalOrders
               [CallCreateRoom room 0 "1,2,3,5,8";
                CallJoinRoom room alice "A" "c1" Participant;
                CallVote room "c1" "5";
                CallJoinRoom room bob "B" "c1" Participant] NewEngine) !! room
      = Some server ∧
    Votes (CurrentSession server) !! "1" = Some "5" ∧
    Players server = {[ "c1" := pB ]} ∧
    PublicId pB = 2 ∧
    ∀ k p, Players server !! k = Some p → Sprintf_d (PublicId p) ≠ "1".
Proof.
  eexists _, _. split; [vm_compute; reflexivity|].
  split; [vm_compute; reflexivity|]. split; [vm_compute; reflexivity|].
  split; [reflexivity|].
  intros k p Hk. vm_compute in Hk.
  change (({[ "c1" := {| Id := "c1"; PublicId := 2; RecoveryId := bob; Name := "B";
                         Type_ := Participant; Mode := Awake |} ]} : gmap string Player)
            !! k = Some p) in Hk.
  apply lookup_singleton_Some in Hk as [<- <-]. vm_compute. discriminate.
Qed.

(** ** Further properties of single calls *)

Section Calls.

Context (rangeOrder : gmap string Player → list (string * Player)).
Hypothesis rangeOrder_perm : ∀ m, rangeOrder m ≡ₚ map_to_list m.



(** X3: [LeaveRoom] answers with an empty name and [false], changing
    nothing, when the room or the private id is unknown.  For a player of
    the room it returns the player's name and removes the player together
    with the vote under the player's public id, shown or not; after that
    the same private id is unknown.  When public ids are distinct, kicking
    the player by public id leaves exactly the same table and returns the
    private id. *)
Theorem LeaveRoom_spec (serverId : UUID) (privateId : string) (e : Engine) :
  (servers e !! serverId = None →
     LeaveRoom serverId privateId e = (e, (EmptyString, false))) ∧
  (∀ server, servers e !! serverId = Some server →
     (Players server !! privateId = None →
        LeaveRoom serverId privateId e = (e, (EmptyString, false))) ∧
     (∀ player, Players server !! privateId = Some player →
        ∃ server',
          LeaveRoom serverId privateId e = (store e serverId server', (Name player, true)) ∧
          Players server' = delete privateId (Players server) ∧
          Votes (CurrentSession server')
            = delete (Sprintf_d (PublicId player)) (Votes (CurrentSession server)) ∧
          IsShown (CurrentSession server') = IsShown (CurrentSession server) ∧
          CardSet (CurrentSession server') = CardSet (CurrentSession server) ∧
          LeaveRoom serverId privateId (store e serverId server')
            = (store e serverId server', (EmptyString, false)) ∧
          (uniquePublicId (Players server) →
             KickPlayer rangeOrder serverId (PublicId player) e
               = (store e serverId server', Ok privateId)))).
Proof using rangeOrder_perm.
  unfold LeaveRoom. split.
  - by intros ->.
  - intros server Hs. rewrite Hs. split.
    + by intros ->.
    + intros player Hp. rewrite Hp. eexists. split; [reflexivity|]. simpl.
      split; [done|]. split; [done|]. split; [done|]. split; [done|]. split.
      * rewrite lookup_insert_eq. simpl. by rewrite lookup_delete_eq.
      * intros Hu. unfold KickPlayer. rewrite Hs.
        destruct (rangeFind_found rangeOrder rangeOrder_perm
                    (fun p => bool_decide (PublicId p = PublicId player))
                    (Players server) privateId player Hp) as [[k p] Hf].
        { by apply bool_decide_eq_true. }
        rewrite Hf. apply rangeFind_Some in Hf as [Hk Hc]; [|done].
        apply bool_decide_eq_true in Hc.
        assert (k = privateId) as -> by (by apply (Hu k privateId p player)).
        assert (p = player) as -> by congruence. done.
Qed.


End Calls.

(** ** Reading rooms and expiring idle ones *)

Section Idle.

(** On readings in the int64 range [Time.Sub] is the difference, cut off
    at the smallest and the largest duration. *)
Lemma Time_Sub_saturated (t u : Z) :
  intMin ≤ t ≤ intMax → intMin ≤ u ≤ intMax →
  (t - u < minDuration ∧ Time_Sub t u = minDuration) ∨
  (maxDuration < t - u ∧ Time_Sub t u = maxDuration) ∨
  (minDuration ≤ t - u ≤ maxDuration ∧ Time_Sub t u = t - u).
Proof.
  unfold Time_Sub, intWrap, intMin, intMax, minDuration, maxDuration. intros Ht Hu.
  destruct (Z_lt_le_dec (t - u) (- 2 ^ 63)) as [Hlow|Hlow].
  - left. split; [done|].
    replace ((t - u + 2 ^ 63) mod 2 ^ 64) with (t - u + 2 ^ 63 + 2 ^ 64).
    2:{ apply Z.mod_unique with (-1); lia. }
    repeat case_match; lia.
  - destruct (Z_lt_le_dec (2 ^ 63 - 1) (t - u)) as [Hhigh|Hhigh].
    + right. left. split; [done|].
      replace ((t - u + 2 ^ 63) mod 2 ^ 64) with (t - u + 2 ^ 63 - 2 ^ 64).
      2:{ apply Z.mod_unique with 1; lia. }
      repeat case_match; lia.
    + right. right. split; [done|]. rewrite Z.mod_small by lia.
      repeat case_match; lia.
Qed.

Lemma Time_Sub_le (t u maxAge : Z) :
  intMin ≤ t ≤ intMax → intMin ≤ u ≤ intMax →
  (minDuration ≤ maxAge < maxDuration → (Time_Sub t u ≤ maxAge ↔ t - u ≤ maxAge)) ∧
  (maxDuration ≤ maxAge → Time_Sub t u ≤ maxAge).
Proof.
  intros Ht Hu.
  destruct (Time_Sub_saturated t u Ht Hu) as [[? ->]|[[? ->]|[? ->]]];
    unfold minDuration, maxDuration in *;
    (split; [intros ?; split; intros ?|intros ?]); lia.
Qed.


(** X6: [CleanupOldRooms] removes exactly the rooms whose last access lies
    more than [maxAge] before [now] and leaves every other room as it is.
    For clock readings in the int64 range and a [maxAge] below the largest
    duration this is plain arithmetic: a room stays if and only if
    [now - LastAccess ≤ maxAge]; with the largest duration as [maxAge] no
    room is ever removed. *)
Theorem CleanupOldRooms_spec (now maxAge : Z) (e : Engine) :
  intMin ≤ now ≤ intMax →
  (∀ id s, servers (CleanupOldRooms now maxAge e) !! id = Some s →
           servers e !! id = Some s) ∧
  (∀ id s, servers e !! id = Some s → intMin ≤ LastAccess s ≤ intMax →
           minDuration ≤ maxAge < maxDuration →
           (servers (CleanupOldRooms now maxAge e) !! id = Some s
              ↔ now - LastAccess s ≤ maxAge) ∧
           (servers (CleanupOldRooms now maxAge e) !! id = None
              ↔ maxAge < now - LastAccess s)) ∧
  (maxDuration ≤ maxAge →
     (∀ id s, servers e !! id = Some s → intMin ≤ LastAccess s ≤ intMax) →
     CleanupOldRooms now maxAge e = e).
Proof.
  intros Hnow. unfold CleanupOldRooms, idleTooLong. simpl. split; [|split].
  - intros id s Hid. by apply map_lookup_filter_Some in Hid as [? _].
  - intros id s Hs Hlast Hmax.
    rewrite map_lookup_filter_Some, map_lookup_filter_None. simpl.
    destruct (Time_Sub_le now (LastAccess s) maxAge Hnow Hlast) as [Hle _].
    specialize (Hle Hmax). split.
    + split.
      * intros [_ Hkeep]. apply Z.ltb_ge in Hkeep. by apply Hle.
      * intros Hkeep. split; [done|]. by apply Z.ltb_ge, Hle.
    + split.
      * intros [Hnone|Hgone]; [congruence|].
        specialize (Hgone s Hs). apply not_false_is_true, Z.ltb_lt in Hgone. lia.
      * intros Hold. right. intros s' Hs'. assert (s' = s) as -> by congruence.
        intros Hkeep. apply Z.ltb_ge in Hkeep. lia.
  - intros Hmax Hlast. destruct e as [rooms]. simpl in *. f_equal.
    apply map_filter_id. intros id s Hs. simpl. apply Z.ltb_ge.
    by apply Time_Sub_le; eauto.
Qed.

(** X7: sweeping twice with the same arguments is sweeping once; a room
    read by [GetServer] at time [t] survives every sweep made no later than
    [t + maxAge] (and no earlier than [t]), with the state the read left. *)
Theorem CleanupOldRooms_after_GetServer (t now maxAge : Z) (id : UUID) (e : Engine)
    (server : PokerServer) :
  servers e !! id = Some server →
  intMin ≤ t ≤ intMax → intMin ≤ now ≤ intMax →
  0 ≤ now - t ≤ maxAge →
  servers (CleanupOldRooms now maxAge (GetServer t id e).1) !! id
    = Some (withLastAccess server t) ∧
  CleanupOldRooms now maxAge (CleanupOldRooms now maxAge e) = CleanupOldRooms now maxAge e.
Proof.
  intros Hs Ht Hnow Hage. split.
  - unfold GetServer, CleanupOldRooms, idleTooLong. rewrite Hs. simpl.
    apply map_lookup_filter_Some. split; [apply lookup_insert_eq|]. simpl.
    apply Z.ltb_ge.
    destruct (Time_Sub_saturated now t Hnow Ht) as [[? ->]|[[? ->]|[? ->]]];
      unfold minDuration, maxDuration, intMin, intMax in *; lia.
  - unfold CleanupOldRooms. simpl. f_equal. apply map_filter_id.
    intros id' s' Hs'. by apply map_lookup_filter_Some in Hs' as [_ ?].
Qed.

End Idle.

(** ** What events do to rooms *)

Section Rooms.

(** Each of the eight calls leaves a room as it is or takes one
    [roomStep]; a room that was not there before is a created one. *)
Lemma call_room rangeOrder c e id s' :
  (∀ m, rangeOrder m ≡ₚ map_to_list m) →
  servers (call rangeOrder c e).1 !! id = Some s' →
  (∃ s, servers e !! id = Some s ∧ (s' = s ∨ roomStep s s')) ∨ created id s'.
Proof.
  intros Hperm.
  assert (∀ i s0 s1,
            servers e !! i = Some s0 → roomStep s0 s1 →
            servers (store e i s1) !! id = Some s' →
            (∃ s, servers e !! id = Some s ∧ (s' = s ∨ roomStep s s')) ∨ created id s')
    as Hstored.
  { intros i s0 s1 Hs0 Hstep. simpl.
    destruct (decide (i = id)) as [->|?].
    - rewrite lookup_insert_eq. intros [= <-]. left. eauto.
    - rewrite lookup_insert_ne by done. intros Hs'. left. eauto. }
  assert (servers e !! id = Some s' →
          (∃ s, servers e !! id = Some s ∧ (s' = s ∨ roomStep s s')) ∨ created id s')
    as Hsame by (intros Hs'; left; eauto).
  destruct c as [cid now desiredCardSet|cid recoveryId playerName privateId pType
                |serverId privateId vote|serverId privateId|serverId|serverId
                |serverId kickedPublicId|serverId privateId]; simpl.
  - unfold CreateRoom. case_bool_decide as Hlen; [done|]. simpl.
    destruct (decide (cid = id)) as [->|?];
      [rewrite lookup_insert_eq|by rewrite lookup_insert_ne].
    intros [= <-]. right. unfold created. simpl.
    split; [done|]. split; [done|]. split; [done|]. split; [done|].
    split; [|by eauto]. intros Hnil. by rewrite Hnil in Hlen.
  - unfold JoinRoom. destruct (servers e !! cid) as [server|] eqn:Hs; [|done].
    destruct (rangeFind _ _ _) as [[k p]|] eqn:Hf; simpl.
    + apply rangeFind_Some in Hf as [Hk _]; [|done].
      apply (Hstored _ server _ Hs). by eapply step_rekey.
    + apply (Hstored _ server _ Hs).
      match goal with
      | |- roomStep _ (withPlayers _ (<[_ := ?pl]> _)) => apply (step_join _ pl)
      end; [done| |].
      * intros k p Hk. simpl.
        pose proof (rangeFind_None _ Hperm _ _ k p Hf Hk) as Hc.
        by apply bool_decide_eq_false in Hc.
      * simpl. destruct (decide (Players server = ∅)) as [Hempty|Hne].
        -- left. split; [done|]. by rewrite Hempty, nextPublicId_empty.
        -- right. destruct (nextPublicId_max _ Hperm _ Hne) as (k & q & ? & ? & ?).
           eauto 6.
  - unfold Vote. destruct (servers e !! serverId) as [server|] eqn:Hs; [|done].
    destruct (Players server !! privateId) as [player|]; [|done].
    case_bool_decide; [done|]. destruct (IsShown _); [done|]. simpl.
    apply (Hstored _ server _ Hs). by apply step_session.
  - unfold UnVote. destruct (servers e !! serverId) as [server|] eqn:Hs; [|done].
    destruct (IsShown _); [done|].
    destruct (Players server !! privateId) as [player|]; [|done]. simpl.
    apply (Hstored _ server _ Hs). by apply step_session.
  - unfold ShowVotes. destruct (servers e !! serverId) as [server|] eqn:Hs; [|done].
    simpl. apply (Hstored _ server _ Hs). by apply step_session.
  - unfold ClearVotes. destruct (servers e !! serverId) as [server|] eqn:Hs; [|done].
    simpl. apply (Hstored _ server _ Hs). by apply step_session.
  - unfold KickPlayer. destruct (servers e !! serverId) as [server|] eqn:Hs; [|done].
    destruct (rangeFind _ _ _) as [[k p]|]; [|done]. simpl.
    apply (Hstored _ server _ Hs).
    unfold withSession, withPlayers. simpl. by apply step_remove.
  - unfold LeaveRoom. destruct (servers e !! serverId) as [server|] eqn:Hs; [|done].
    destruct (Players server !! privateId) as [player|]; [|done]. simpl.
    apply (Hstored _ server _ Hs).
    unfold withSession, withPlayers. simpl. by apply step_remove.
Qed.

Lemma GetServer_room now i e id s' :
  servers (GetServer now i e).1 !! id = Some s' →
  ∃ s, servers e !! id = Some s ∧ (s' = s ∨ roomStep s s').
Proof.
  unfold GetServer. destruct (servers e !! i) as [server|] eqn:Hs; simpl; [|by eauto].
  destruct (decide (i = id)) as [->|?];
    [rewrite lookup_insert_eq|rewrite lookup_insert_ne by done; by eauto].
  intros [= <-]. exists server. split; [done|]. right. by apply step_session.
Qed.

(** The changeType action in closed form. *)
Lemma changeType_result t0 t1 roomId playerId pType e :
  changeType t0 t1 roomId playerId pType e =
    if bool_decide (playerId = EmptyString) then e
    else
      match servers e !! roomId with
      | None => e
      | Some server =>
          match Players server !! playerId with
          | None => store e roomId (withLastAccess server t0)
          | Some player =>
              if bool_decide (Name player = "Unknown")
              then store e roomId (withLastAccess server t0)
              else
                store e roomId
                  {| ServerId := ServerId server;
                     Players := <[playerId := withType player pType]> (Players server);
                     CurrentSession :=
                       if bool_decide (pType = Observer)
                            && negb (IsShown (CurrentSession server))
                       then withVotes (CurrentSession server)
                              (delete (Sprintf_d (PublicId player))
                                 (Votes (CurrentSession server)))
                       else CurrentSession server;
                     LastAccess := t1 |}
          end
      end.
Proof.
  unfold changeType, getPlayerName.
  destruct (decide (playerId = EmptyString)) as [Hid|Hid].
  { by rewrite !(bool_decide_eq_true_2 (playerId = EmptyString)) by done. }
  rewrite !(bool_decide_eq_false_2 (playerId = EmptyString)) by done.
  unfold GetServer. destruct (servers e !! roomId) as [server|] eqn:Hs; simpl; [|done].
  destruct (Players server !! playerId) as [player|] eqn:Hp; simpl; [|done].
  case_bool_decide as Hname; [done|].
  rewrite lookup_insert_eq. simpl. rewrite Hp.
  case_bool_decide as Hobs; simpl.
  - unfold UnVote. simpl. rewrite lookup_insert_eq. simpl.
    destruct (IsShown (CurrentSession server)); simpl.
    + unfold store. simpl. by rewrite !insert_insert_eq.
    + rewrite lookup_insert_eq. unfold store. simpl. by rewrite !insert_insert_eq.
  - unfold store. simpl. by rewrite !insert_insert_eq.
Qed.

Lemma changeType_room t0 t1 roomId playerId pType e id s' :
  servers (changeType t0 t1 roomId playerId pType e) !! id = Some s' →
  ∃ s, servers e !! id = Some s ∧ (s' = s ∨ roomStep s s').
Proof.
  rewrite changeType_result. case_bool_decide; [by eauto|].
  destruct (servers e !! roomId) as [server|] eqn:Hs; [|by eauto].
  assert (∀ s1, roomStep server s1 →
            servers (store e roomId s1) !! id = Some s' →
            ∃ s, servers e !! id = Some s ∧ (s' = s ∨ roomStep s s')) as Hstored.
  { intros s1 Hstep. simpl. destruct (decide (roomId = id)) as [->|?].
    - rewrite lookup_insert_eq. intros [= <-]. eauto.
    - rewrite lookup_insert_ne by done. eauto. }
  destruct (Players server !! playerId) as [player|] eqn:Hp.
  - case_bool_decide.
    + apply Hstored. by apply step_session.
    + apply Hstored. apply step_retype; [done|]. by case_match.
  - apply Hstored. by apply step_session.
Qed.

Lemma step_room ev e id s' :
  orderly ev →
  servers (step ev e) !! id = Some s' →
  (∃ s, servers e !! id = Some s ∧ (s' = s ∨ roomStep s s')) ∨ created id s'.
Proof.
  destruct ev as [rangeOrder c|now i|now maxAge|t0 t1 roomId playerId pType]; simpl.
  - apply call_room.
  - intros _ Hs'. left. by eapply GetServer_room.
  - intros _ Hs'. apply map_lookup_filter_Some in Hs' as [Hs' _]. left. eauto.
  - intros _ Hs'. left. by eapply changeType_room.
Qed.

(** An invariant of rooms, possibly growing with the number of events: it
    holds in every state reached from the empty engine once it holds for
    created rooms and is kept by every [roomStep]. *)
Lemma steps_invariant (P : nat → UUID → PokerServer → Prop) :
  (∀ n id s, created id s → P n id s) →
  (∀ n id s, P n id s → P (S n) id s) →
  (∀ n id s s', P n id s → roomStep s s' → P (S n) id s') →
  ∀ evs, Forall orderly evs →
         map_Forall (P (List.length evs)) (servers (steps evs NewEngine)).
Proof.
  intros Hcreated Hmono Hstep evs.
  induction evs as [|ev evs IH] using rev_ind; intros Hevs.
  - simpl. apply map_Forall_empty.
  - apply Forall_app in Hevs as [Hevs Hev]. apply Forall_inv in Hev.
    unfold steps. rewrite fold_left_app. simpl. fold (steps evs NewEngine).
    rewrite length_app. simpl. rewrite Nat.add_1_r.
    intros id s' Hs'.
    destruct (step_room ev _ id s' Hev Hs') as [(s & Hs & [->|Hrs])|Hnew].
    + apply Hmono. by apply (IH Hevs id s).
    + eapply Hstep; [|done]. by apply (IH Hevs id s).
    + by apply Hcreated.
Qed.

End Rooms.

(** ** Invariants of the room table *)

Section Invariants.

(** X8: a call acts on the room it addresses only: every other room of the
    table is, after the call, exactly what it was before. *)
Theorem call_other_rooms rangeOrder (c : Call) (e : Engine) (id' : UUID) :
  id' ≠ target c →
  servers (call rangeOrder c e).1 !! id' = servers e !! id'.
Proof.
  intros Hne.
  destruct c; simpl in *;
    unfold CreateRoom, JoinRoom, Vote, UnVote, ShowVotes, ClearVotes,
      KickPlayer, LeaveRoom;
    repeat case_match; simpl; try done; by rewrite lookup_insert_ne.
Qed.

(** X9: none of the eight calls removes a room, changes its id or card
    set, or updates its [LastAccess]; only a [CreateRoom] that draws the
    id of a room in the table replaces that room. *)
Theorem call_keeps_room rangeOrder (c : Call) (e : Engine) (id : UUID) (s : PokerServer) :
  servers e !! id = Some s →
  (∀ now desiredCardSet, c ≠ CallCreateRoom id now desiredCardSet) →
  ∃ s', servers (call rangeOrder c e).1 !! id = Some s' ∧
        ServerId s' = ServerId s ∧
        CardSet (CurrentSession s') = CardSet (CurrentSession s) ∧
        LastAccess s' = LastAccess s.
Proof.
  intros Hs Hnew.
  destruct (decide (id = target c)) as [->|Hne];
    [|exists s; by rewrite call_other_rooms].
  destruct c; simpl in *;
    unfold CreateRoom, JoinRoom, Vote, UnVote, ShowVotes, ClearVotes,
      KickPlayer, LeaveRoom;
    rewrite ?Hs; repeat case_match; simpl; rewrite ?lookup_insert_eq;
    try (by eauto); by destruct (Hnew now desiredCardSet).
Qed.





Lemma roomStep_filed s s' :
  keyed (Players s) ∧ uniqueRecovery (Players s) → roomStep s s' →
  keyed (Players s') ∧ uniqueRecovery (Players s').
Proof.
  intros [Hk Hu]. destruct 1 as [k p privateId playerName pType Hp
                                |player Hmode Hfresh _|cs t _|k cs _|k p pType cs t Hp _];
    simpl.
  - rewrite (Hk k p Hp). split.
    + apply map_Forall_insert_2; [done|]. by apply map_Forall_delete.
    + intros k1 k2 p1 p2 H1 H2 Hr.
      apply lookup_insert_Some in H1 as [[<- <-]|[Hn1 H1]];
        apply lookup_insert_Some in H2 as [[<- <-]|[Hn2 H2]]; try done.
      * apply lookup_delete_Some in H2 as [Hd2 H2]. simpl in Hr.
        by destruct Hd2; apply (Hu k k2 p p2).
      * apply lookup_delete_Some in H1 as [Hd1 H1]. simpl in Hr.
        by destruct Hd1; apply (Hu k k1 p p1).
      * apply lookup_delete_Some in H1 as [_ H1].
        apply lookup_delete_Some in H2 as [_ H2]. by apply (Hu k1 k2 p1 p2).
  - split.
    + by apply map_Forall_insert_2.
    + intros k1 k2 p1 p2 H1 H2 Hr.
      apply lookup_insert_Some in H1 as [[<- <-]|[Hn1 H1]];
        apply lookup_insert_Some in H2 as [[<- <-]|[Hn2 H2]]; try done.
      * by destruct (Hfresh k2 p2 H2).
      * by destruct (Hfresh k1 p1 H1).
      * by apply (Hu k1 k2 p1 p2).
  - done.
  - split.
    + by apply map_Forall_delete.
    + intros k1 k2 p1 p2 [_ H1]%lookup_delete_Some [_ H2]%lookup_delete_Some.
      by apply (Hu k1 k2 p1 p2).
  - split.
    + apply map_Forall_insert_2; [|done]. simpl. by apply (Hk k p).
    + intros k1 k2 p1 p2 H1 H2 Hr.
      apply lookup_insert_Some in H1 as [[<- <-]|[Hn1 H1]];
        apply lookup_insert_Some in H2 as [[<- <-]|[Hn2 H2]]; try done.
      * by apply (Hu k k2 p p2).
      * by apply (Hu k1 k p1 p).
      * by apply (Hu k1 k2 p1 p2).
Qed.

(** X11: in every state reached from the empty engine every player record
    is filed under its own private id, and no two players of a room carry
    the same recovery id: a recovery id never has a second player. *)
Theorem players_well_filed (evs : list Event) (id : UUID) (s : PokerServer) :
  Forall orderly evs →
  servers (steps evs NewEngine) !! id = Some s →
  keyed (Players s) ∧ uniqueRecovery (Players s).
Proof.
  intros Hevs Hs.
  refine (steps_invariant
            (fun _ _ s => keyed (Players s) ∧ uniqueRecovery (Players s))
            _ _ _ evs Hevs id s Hs).
  - intros _ _ s0 (_ & -> & _). split; [apply map_Forall_empty|].
    intros k1 k2 p1 p2 H1. by rewrite lookup_empty in H1.
  - done.
  - intros _ _ s0 s1. apply roomStep_filed.
Qed.


End Invariants.

(** ** Public ids in reachable states, and the iteration order *)

Section PublicIds.

Lemma roomStep_idsWithin n s s' :
  Z.of_nat n < intMax → idsWithin n s → roomStep s s' → idsWithin (S n) s'.
Proof.
  intros Hn (Hk & Hb & Hu).
  assert (∀ k p, Players s !! k = Some p → 1 ≤ PublicId p ≤ Z.of_nat (S n)) as Hb'.
  { intros k p Hp. specialize (Hb k p Hp). lia. }
  destruct 1 as [k p privateId playerName pType Hp
                |player Hmode _ Hnext|cs t _|k cs _|k p pType cs t Hp _];
    unfold idsWithin; simpl.
  - rewrite (Hk k p Hp). split; [|split].
    + apply map_Forall_insert_2; [done|]. by apply map_Forall_delete.
    + intros k1 p1 [[<- <-]|[_ [_ H1]%lookup_delete_Some]]%lookup_insert_Some;
        simpl; eauto.
    + intros k1 k2 p1 p2 H1 H2 Hr.
      apply lookup_insert_Some in H1 as [[<- <-]|[Hn1 H1]];
        apply lookup_insert_Some in H2 as [[<- <-]|[Hn2 H2]]; try done.
      * apply lookup_delete_Some in H2 as [Hd2 H2]. simpl in Hr.
        by destruct Hd2; apply (Hu k k2 p p2).
      * apply lookup_delete_Some in H1 as [Hd1 H1]. simpl in Hr.
        by destruct Hd1; apply (Hu k k1 p p1).
      * apply lookup_delete_Some in H1 as [_ H1].
        apply lookup_delete_Some in H2 as [_ H2]. by apply (Hu k1 k2 p1 p2).
  - assert (1 ≤ PublicId player ≤ Z.of_nat (S n) ∧
            ∀ k p, Players s !! k = Some p → PublicId p < PublicId player)
      as [Hnew Habove].
    { destruct Hnext as [[Hempty ->]|(k & p & Hp & Hmax & ->)].
      - split; [lia|]. intros k p. by rewrite Hempty, lookup_empty.
      - pose proof (Hb k p Hp) as Hpb.
        rewrite intAdd_in_range by (unfold intMin, intMax in *; lia).
        split; [lia|]. intros k' p' Hp'. specialize (Hmax k' p' Hp'). lia. }
    split; [|split].
    + by apply map_Forall_insert_2.
    + intros k1 p1 [[<- <-]|[_ H1]]%lookup_insert_Some; eauto.
    + intros k1 k2 p1 p2 H1 H2 Hr.
      apply lookup_insert_Some in H1 as [[<- <-]|[Hn1 H1]];
        apply lookup_insert_Some in H2 as [[<- <-]|[Hn2 H2]]; try done.
      * specialize (Habove k2 p2 H2). lia.
      * specialize (Habove k1 p1 H1). lia.
      * by apply (Hu k1 k2 p1 p2).
  - done.
  - split; [by apply map_Forall_delete|]. split.
    + intros k1 p1 [_ H1]%lookup_delete_Some. eauto.
    + intros k1 k2 p1 p2 [_ H1]%lookup_delete_Some [_ H2]%lookup_delete_Some.
      by apply (Hu k1 k2 p1 p2).
  - split; [|split].
    + apply map_Forall_insert_2; [|done]. simpl. by apply (Hk k p).
    + intros k1 p1 [[<- <-]|[_ H1]]%lookup_insert_Some; simpl; eauto.
    + intros k1 k2 p1 p2 H1 H2 Hr.
      apply lookup_insert_Some in H1 as [[<- <-]|[Hn1 H1]];
        apply lookup_insert_Some in H2 as [[<- <-]|[Hn2 H2]]; try done.
      * by apply (Hu k k2 p p2).
      * by apply (Hu k1 k p1 p).
      * by apply (Hu k1 k2 p1 p2).
Qed.

(** X13: in a state reached from the empty engine by [n] events, [n] not
    above the largest [int], the public ids of the players of a room lie
    between 1 and [n] and no two players of the room share one. *)
Theorem publicIds_distinct (evs : list Event) (id : UUID) (s : PokerServer) :
  Forall orderly evs →
  Z.of_nat (List.length evs) ≤ intMax →
  servers (steps evs NewEngine) !! id = Some s →
  (∀ k p, Players s !! k = Some p → 1 ≤ PublicId p ≤ Z.of_nat (List.length evs)) ∧
  uniquePublicId (Players s).
Proof.
  intros Hevs Hlen Hs.
  enough (idsWithin (List.length evs) s) as (_ & ? & ?) by done.
  refine (steps_invariant
            (fun n _ s => Z.of_nat n ≤ intMax → idsWithin n s)
            _ _ _ evs Hevs id s Hs Hlen).
  - intros n _ s0 (_ & Hempty & _) _. unfold idsWithin. rewrite Hempty.
    split; [apply map_Forall_empty|].
    split; [intros k p|intros k1 k2 p1 p2]; by rewrite lookup_empty.
  - intros n _ s0 Hn HS. destruct Hn as (Hk & Hb & Hu); [lia|].
    split; [done|]. split; [|done]. intros k p Hp. specialize (Hb k p Hp). lia.
  - intros n _ s0 s1 Hn Hstep HS.
    apply (roomStep_idsWithin n s0); [lia| |done]. apply Hn. lia.
Qed.

Lemma rangeFind_order o1 o2 cond (m : gmap string Player) :
  (∀ m, o1 m ≡ₚ map_to_list m) → (∀ m, o2 m ≡ₚ map_to_list m) →
  (∀ k1 k2 p1 p2, m !! k1 = Some p1 → m !! k2 = Some p2 →
                  cond p1 = true → cond p2 = true → k1 = k2) →
  rangeFind o1 cond m = rangeFind o2 cond m.
Proof.
  intros H1 H2 Hone.
  destruct (rangeFind o1 cond m) as [[k1 p1]|] eqn:Hf1;
    destruct (rangeFind o2 cond m) as [[k2 p2]|] eqn:Hf2; [| | |done].
  - apply rangeFind_Some in Hf1 as [Hk1 Hc1]; [|done].
    apply rangeFind_Some in Hf2 as [Hk2 Hc2]; [|done].
    assert (k1 = k2) as -> by eauto. congruence.
  - apply rangeFind_Some in Hf1 as [Hk1 Hc1]; [|done].
    rewrite (rangeFind_None _ H2 _ _ _ _ Hf2 Hk1) in Hc1. discriminate.
  - apply rangeFind_Some in Hf2 as [Hk2 Hc2]; [|done].
    rewrite (rangeFind_None _ H1 _ _ _ _ Hf1 Hk2) in Hc2. discriminate.
Qed.

Lemma nextPublicId_order o1 o2 (m : gmap string Player) :
  (∀ m, o1 m ≡ₚ map_to_list m) → (∀ m, o2 m ≡ₚ map_to_list m) →
  nextPublicId o1 m = nextPublicId o2 m.
Proof.
  intros H1 H2. destruct (decide (m = ∅)) as [->|Hne].
  - by rewrite !nextPublicId_empty.
  - destruct (nextPublicId_max o1 H1 m Hne) as (k1 & p1 & Hk1 & Hm1 & ->).
    destruct (nextPublicId_max o2 H2 m Hne) as (k2 & p2 & Hk2 & Hm2 & ->).
    f_equal. pose proof (Hm1 k2 p2 Hk2). pose proof (Hm2 k1 p1 Hk1). lia.
Qed.

(** X14: the id a new player gets does not depend on the order in which
    the map is ranged over; and in a room whose players have distinct
    recovery ids and distinct public ids (as in every state reached from
    the empty engine, short of overflow) no call depends on it at all. *)
Theorem call_order_irrelevant o1 o2 (c : Call) (e : Engine) :
  (∀ m, o1 m ≡ₚ map_to_list m) → (∀ m, o2 m ≡ₚ map_to_list m) →
  (∀ m, nextPublicId o1 m = nextPublicId o2 m) ∧
  ((∀ s, servers e !! target c = Some s →
         uniqueRecovery (Players s) ∧ uniquePublicId (Players s)) →
   call o1 c e = call o2 c e).
Proof.
  intros H1 H2. split; [intros m; by apply nextPublicId_order|].
  intros Huniq. destruct c; simpl in *; try done.
  - unfold JoinRoom. destruct (servers e !! id) as [server|] eqn:Hs; [|done].
    destruct (Huniq server eq_refl) as [Hr _].
    rewrite (rangeFind_order o1 o2 _ (Players server) H1 H2).
    + by rewrite (nextPublicId_order o1 o2 _ H1 H2).
    + intros k1 k2 p1 p2 Hk1 Hk2 Hc1%bool_decide_eq_true Hc2%bool_decide_eq_true.
      apply (Hr k1 k2 p1 p2); congruence.
  - unfold KickPlayer. destruct (servers e !! serverId) as [server|] eqn:Hs; [|done].
    destruct (Huniq server eq_refl) as [_ Hp].
    rewrite (rangeFind_order o1 o2 _ (Players server) H1 H2); [done|].
    intros k1 k2 p1 p2 Hk1 Hk2 Hc1%bool_decide_eq_true Hc2%bool_decide_eq_true.
    apply (Hp k1 k2 p1 p2); congruence.
Qed.

End PublicIds.

(** ** How calls compose *)

Section Compose.

Context (rangeOrder : gmap string Player → list (string * Player)).
Hypothesis rangeOrder_perm : ∀ m, rangeOrder m ≡ₚ map_to_list m.

(** X15: of two votes by the same connection the later one stands: voting
    [v1] and then [v2] gives the table and the reply of voting [v2] at
    once, whether the votes are accepted or refused. *)
Theorem Vote_twice (serverId : UUID) (privateId v1 v2 : string) (e : Engine) :
  Vote serverId privateId v2 (Vote serverId privateId v1 e).1
    = Vote serverId privateId v2 e.
Proof.
  unfold Vote. destruct (servers e !! serverId) as [server|] eqn:Hs; simpl;
    [|by rewrite Hs].
  destruct (Players server !! privateId) as [player|] eqn:Hp; simpl;
    [|by rewrite Hs, Hp].
  case_bool_decide as HO; simpl; [by rewrite Hs, Hp, bool_decide_eq_true_2|].
  destruct (IsShown (CurrentSession server)) eqn:Hshown; simpl.
  - by rewrite Hs, Hp, bool_decide_eq_false_2, Hshown.
  - rewrite lookup_insert_eq. simpl. rewrite Hp, bool_decide_eq_false_2, Hshown by done.
    simpl. unfold store. simpl. by rewrite !insert_insert_eq.
Qed.

(** X16: an accepted vote followed by [UnVote] of the same connection
    leaves what [UnVote] alone leaves; when the player had no vote before,
    that is the table as it was before the vote. *)
Theorem Vote_then_UnVote (serverId : UUID) (privateId vote : string) (e : Engine)
    (server : PokerServer) (player : Player) :
  servers e !! serverId = Some server →
  Players server !! privateId = Some player →
  (Vote serverId privateId vote e).2 = None →
  UnVote serverId privateId (Vote serverId privateId vote e).1
    = UnVote serverId privateId e ∧
  (Votes (CurrentSession server) !! Sprintf_d (PublicId player) = None →
     UnVote serverId privateId (Vote serverId privateId vote e).1 = (e, None)).
Proof.
  intros Hs Hp. unfold Vote, UnVote. rewrite Hs, Hp.
  case_bool_decide; [done|].
  destruct (IsShown (CurrentSession server)) eqn:Hshown; [done|]. intros _. simpl.
  rewrite lookup_insert_eq. simpl. rewrite Hshown, Hp. unfold store. simpl.
  rewrite !insert_insert_eq, delete_insert_eq. split; [done|].
  intros Hnone. rewrite delete_id by done. f_equal.
  destruct e as [rooms]. simpl in *. f_equal. apply insert_id. rewrite Hs.
  f_equal. by destruct server as [? ? [? ? ?] ?].
Qed.

(** X17: a first join under an unused private id, followed by [LeaveRoom]
    of that private id, gives the name back and restores the table, as
    long as no vote was recorded under the public id the join allocated. *)
Theorem JoinRoom_then_LeaveRoom (id recoveryId : UUID) (playerName privateId : string)
    (pType : PlayerType) (e : Engine) (server : PokerServer) :
  servers e !! id = Some server →
  (∀ k p, Players server !! k = Some p → RecoveryId p ≠ recoveryId) →
  Players server !! privateId = None →
  Votes (CurrentSession server)
    !! Sprintf_d (nextPublicId rangeOrder (Players server)) = None →
  LeaveRoom id privateId
    (JoinRoom rangeOrder id recoveryId playerName privateId pType e).1
    = (e, (playerName, true)).
Proof using rangeOrder_perm.
  intros Hs Hrec Hfree Hvote. unfold JoinRoom. rewrite Hs.
  destruct (rangeFind _ _ _) as [[k p]|] eqn:Hf.
  { apply rangeFind_Some in Hf as [Hk Hc]; [|done]. apply bool_decide_eq_true in Hc.
    by destruct (Hrec k p Hk). }
  simpl. unfold LeaveRoom. simpl. rewrite lookup_insert_eq. simpl.
  rewrite lookup_insert_eq. simpl. f_equal.
  rewrite delete_insert_id, delete_id by done.
  destruct e as [rooms]. unfold store. simpl in *. f_equal.
  rewrite insert_insert_eq. apply insert_id. rewrite Hs. f_equal.
  by destruct server as [? ? [? ? ?] ?].
Qed.

(** X18: after a kick the private id returned is no player of the room any
    more: a vote or a leave under it is refused and changes nothing; and
    when public ids are distinct a second kick of the same public id finds
    no one. *)
Theorem after_KickPlayer (serverId : UUID) (kickedPublicId : Z) (e e' : Engine)
    (server : PokerServer) (k : string) :
  servers e !! serverId = Some server →
  KickPlayer rangeOrder serverId kickedPublicId e = (e', Ok k) →
  (∀ vote, Vote serverId k vote e' = (e', Some ErrPlayerNotFound)) ∧
  LeaveRoom serverId k e' = (e', (EmptyString, false)) ∧
  (uniquePublicId (Players server) →
     KickPlayer rangeOrder serverId kickedPublicId e' = (e', Err ErrPlayerNotFound)).
Proof using rangeOrder_perm.
  intros Hs. unfold KickPlayer. rewrite Hs.
  destruct (rangeFind _ _ _) as [[k0 p]|] eqn:Hf; [|done].
  apply rangeFind_Some in Hf as [Hk Hc]; [|done]. apply bool_decide_eq_true in Hc.
  intros [= <- <-]. split; [|split].
  - intros vote. unfold Vote. simpl. rewrite lookup_insert_eq. simpl.
    by rewrite lookup_delete_eq.
  - unfold LeaveRoom. simpl. rewrite lookup_insert_eq. simpl.
    by rewrite lookup_delete_eq.
  - intros Hu. simpl. rewrite lookup_insert_eq. simpl.
    destruct (rangeFind _ _ (delete k0 (Players server))) as [[k1 p1]|] eqn:Hf1; [|done].
    apply rangeFind_Some in Hf1 as [[Hne Hk1]%lookup_delete_Some Hc1]; [|done].
    apply bool_decide_eq_true in Hc1.
    destruct Hne. apply (Hu k0 k1 p p1); congruence.
Qed.

End Compose.

(** ** Observers and votes *)

Section Observers.

(** X19: where public ids are distinct, no call other than [JoinRoom] gives
    an Observer a vote: if no Observer of any room has a vote entry before
    the call, none has one after it. *)
Theorem call_keeps_observers_voteless rangeOrder (c : Call) (e : Engine) :
  (∀ m, rangeOrder m ≡ₚ map_to_list m) →
  (∀ id recoveryId playerName privateId pType,
     c ≠ CallJoinRoom id recoveryId playerName privateId pType) →
  map_Forall (fun _ s => uniquePublicId (Players s)) (servers e) →
  map_Forall (fun _ s => observersVoteless s) (servers e) →
  map_Forall (fun _ s => observersVoteless s) (servers (call rangeOrder c e).1).
Proof.
  intros Hperm Hnojoin Hu Hall.
  destruct c as [cid now desiredCardSet|cid recoveryId playerName privateId pType
                |serverId privateId vote|serverId privateId|serverId|serverId
                |serverId kickedPublicId|serverId privateId]; simpl.
  - unfold CreateRoom. case_bool_decide; [done|]. simpl.
    apply map_Forall_insert_2; [|done]. intros k p. simpl. by rewrite lookup_empty.
  - by destruct (Hnojoin cid recoveryId playerName privateId pType).
  - unfold Vote. destruct (servers e !! serverId) as [server|] eqn:Hs; [|done].
    destruct (Players server !! privateId) as [player|] eqn:Hp; [|done].
    case_bool_decide as HO; [done|]. destruct (IsShown _); [done|]. simpl.
    apply map_Forall_insert_2; [|done]. intros k p Hk Hobs. simpl in *.
    rewrite lookup_insert_ne; [by apply (Hall _ _ Hs k p)|].
    intros Heq. apply (inj pretty) in Heq.
    assert (privateId = k) as <- by (by apply (Hu _ _ Hs privateId k player p)).
    congruence.
  - unfold UnVote. destruct (servers e !! serverId) as [server|] eqn:Hs; [|done].
    destruct (IsShown _); [done|].
    destruct (Players server !! privateId) as [player|] eqn:Hp; [|done]. simpl.
    apply map_Forall_insert_2; [|done]. intros k p Hk Hobs. simpl in *.
    apply lookup_delete_None. right. by apply (Hall _ _ Hs k p).
  - unfold ShowVotes. destruct (servers e !! serverId) as [server|] eqn:Hs; [|done].
    simpl. apply map_Forall_insert_2; [|done]. exact (Hall _ _ Hs).
  - unfold ClearVotes. destruct (servers e !! serverId) as [server|] eqn:Hs; [|done].
    simpl. apply map_Forall_insert_2; [|done]. intros k p _ _. simpl.
    by rewrite lookup_empty.
  - unfold KickPlayer. destruct (servers e !! serverId) as [server|] eqn:Hs; [|done].
    destruct (rangeFind _ _ _) as [[k0 p0]|]; [|done]. simpl.
    apply map_Forall_insert_2; [|done].
    intros k p Hk Hobs. simpl in *. apply lookup_delete_Some in Hk as [_ Hk].
    apply lookup_delete_None. right. by apply (Hall _ _ Hs k p).
  - unfold LeaveRoom. destruct (servers e !! serverId) as [server|] eqn:Hs; [|done].
    destruct (Players server !! privateId) as [player|] eqn:Hp; [|done]. simpl.
    apply map_Forall_insert_2; [|done].
    intros k p Hk Hobs. simpl in *. apply lookup_delete_Some in Hk as [_ Hk].
    apply lookup_delete_None. right. by apply (Hall _ _ Hs k p).
Qed.

End Observers.

(** ** The changeType action *)

Section ChangeType.

(** X20: the name the transport finds for a client is ["Unknown"] exactly
    when the client has no player id, or the room or the player is not
    there, or the player chose ["Unknown"] as name; otherwise it is the
    player's name.  Looking it up changes nothing for a client without
    player id and otherwise does what [GetServer] does. *)
Theorem getPlayerName_spec (now : Z) (roomId : UUID) (playerId : string) (e : Engine) :
  ((getPlayerName now roomId playerId e).2 = "Unknown" ↔
     playerId = EmptyString ∨
     ∀ server player, servers e !! roomId = Some server →
                      Players server !! playerId = Some player →
                      Name player = "Unknown") ∧
  (∀ server player, playerId ≠ EmptyString →
     servers e !! roomId = Some server → Players server !! playerId = Some player →
     (getPlayerName now roomId playerId e).2 = Name player) ∧
  (playerId = EmptyString → (getPlayerName now roomId playerId e).1 = e) ∧
  (playerId ≠ EmptyString →
     (getPlayerName now roomId playerId e).1 = (GetServer now roomId e).1).
Proof.
  unfold getPlayerName, GetServer.
  destruct (decide (playerId = EmptyString)) as [Hid|Hid].
  { rewrite bool_decide_eq_true_2 by done. simpl. split; [by split; auto|]. done. }
  rewrite bool_decide_eq_false_2 by done.
  destruct (servers e !! roomId) as [server|] eqn:Hs; simpl.
  - destruct (Players server !! playerId) as [player|] eqn:Hp; simpl.
    + split; [|split; [|done]].
      * split.
        -- intros Hn. right. intros server0 player0 Hs0 Hp0.
           assert (server0 = server) as -> by congruence. congruence.
        -- intros [?|Hn]; [done|]. by apply (Hn server player).
      * intros server0 player0 _ Hs0 Hp0.
        assert (server0 = server) as -> by congruence. congruence.
    + split; [|split; [|done]].
      * split; [|done]. intros _. right. intros server0 player0 Hs0 Hp0.
        assert (server0 = server) as -> by congruence. congruence.
      * intros server0 player0 _ Hs0 Hp0.
        assert (server0 = server) as -> by congruence. congruence.
  - split; [|split; [|done]].
    + split; [|done]. intros _. by right.
    + done.
Qed.


(** X22: while the votes of the room are not shown, the changeType action
    keeps every room free of Observers with a vote entry. *)
Theorem changeType_keeps_observers_voteless (t0 t1 : Z) (roomId : UUID)
    (playerId : string) (pType : PlayerType) (e : Engine) :
  (∀ server, servers e !! roomId = Some server →
             IsShown (CurrentSession server) = false) →
  map_Forall (fun _ s => observersVoteless s) (servers e) →
  map_Forall (fun _ s => observersVoteless s)
    (servers (changeType t0 t1 roomId playerId pType e)).
Proof.
  intros Hshown Hall. rewrite changeType_result. case_bool_decide; [done|].
  destruct (servers e !! roomId) as [server|] eqn:Hs; [|done].
  rewrite (Hshown server eq_refl), andb_true_r.
  destruct (Players server !! playerId) as [player|] eqn:Hp.
  - case_bool_decide; [apply map_Forall_insert_2; [|done]; exact (Hall _ _ Hs)|].
    apply map_Forall_insert_2; [|done]. intros k p Hk Hobs. simpl in *.
    apply lookup_insert_Some in Hk as [[<- <-]|[Hne Hk]]; simpl in *.
    + rewrite bool_decide_eq_true_2 by done. simpl. apply lookup_delete_eq.
    + case_bool_decide; simpl.
      * apply lookup_delete_None. right. by apply (Hall _ _ Hs k p).
      * by apply (Hall _ _ Hs k p).
  - apply map_Forall_insert_2; [|done]. exact (Hall _ _ Hs).
Qed.

End ChangeType.

(** ** The broadcast hub *)

Section HubProperties.

Context (memberOrder : gset Client → list Client).
Hypothesis memberOrder_perm : ∀ room, memberOrder room ≡ₚ elements room.

Lemma sendOf_insert (h h' : Hub) c ch c' :
  Sends h' = <[c := ch]> (Sends h) →
  sendOf h' c' = if decide (c = c') then ch else sendOf h c'.
Proof.
  unfold sendOf. intros ->. destruct (decide (c = c')) as [->|Hne].
  - by rewrite lookup_insert_eq.
  - by rewrite lookup_insert_ne.
Qed.

(** X23: registering puts the client into the room of its [RoomId],
    creating the entry if need be, keeps the clients that were there,
    touches no other room and no channel, and is idempotent. *)
Theorem register_spec (client : Client) (h : Hub) :
  (∃ room, Rooms (register client h) !! RoomId client = Some room ∧
           ∀ c, c ∈ room ↔ c = client ∨ c ∈ default ∅ (Rooms h !! RoomId client)) ∧
  (∀ roomId, roomId ≠ RoomId client →
             Rooms (register client h) !! roomId = Rooms h !! roomId) ∧
  Sends (register client h) = Sends h ∧
  register client (register client h) = register client h.
Proof.
  unfold register. simpl. split; [|split; [|split]].
  - eexists. split; [apply lookup_insert_eq|]. intros c.
    by rewrite elem_of_union, elem_of_singleton.
  - intros roomId Hne. by rewrite lookup_insert_ne.
  - done.
  - f_equal. rewrite lookup_insert_eq. simpl. rewrite insert_insert_eq.
    f_equal. apply set_eq. intros c.
    rewrite !elem_of_union, elem_of_singleton. tauto.
Qed.

(** X24: unregistering a client whose room has no entry does nothing (the
    channel is not closed).  With an entry and an open channel it removes
    the client from the room, closes the channel with its messages still
    in it, drops the entry when the room has become empty, and touches no
    other room or channel.  With an entry and a channel that is already
    closed the hub panics. *)
Theorem unregister_spec (client : Client) (h : Hub) :
  (Rooms h !! RoomId client = None → unregister client h = Running h) ∧
  (∀ room, Rooms h !! RoomId client = Some room →
     (closed (sendOf h client) = true →
        unregister client h = Panic "close of closed channel") ∧
     (closed (sendOf h client) = false →
        ∃ h',
          unregister client h = Running h' ∧
          Rooms h' !! RoomId client
            = (if decide (room ∖ {[client]} = ∅) then None
               else Some (room ∖ {[client]})) ∧
          (∀ roomId, roomId ≠ RoomId client → Rooms h' !! roomId = Rooms h !! roomId) ∧
          sendOf h' client
            = {| buffered := buffered (sendOf h client); closed := true |} ∧
          (∀ c, c ≠ client → sendOf h' c = sendOf h c))).
Proof.
  unfold unregister. split; [by intros ->|]. intros room Hroom. rewrite Hroom.
  unfold closeSend, dropMember. simpl.
  change (sendOf {| Rooms := _; Sends := Sends h |} client) with (sendOf h client).
  split; [by intros ->|]. intros ->. simpl.
  rewrite lookup_alter_eq, Hroom. simpl.
  destruct (decide (room ∖ {[client]} = ∅)) as [Hempty|Hne].
  - rewrite bool_decide_eq_true_2 by (by rewrite Hempty, size_empty).
    eexists. split; [reflexivity|]. simpl. split; [apply lookup_delete_eq|].
    split; [intros roomId Hr; by rewrite lookup_delete_ne, lookup_alter_ne|].
    split.
    + unfold sendOf at 1. simpl. by rewrite lookup_insert_eq.
    + intros c Hc. unfold sendOf. simpl. by rewrite lookup_insert_ne.
  - rewrite bool_decide_eq_false_2
      by (intros Hz; apply size_empty_iff in Hz; by apply leibniz_equiv in Hz).
    eexists. split; [reflexivity|]. simpl.
    split; [by rewrite lookup_alter_eq, Hroom|].
    split; [intros roomId Hr; by rewrite lookup_alter_ne|].
    split.
    + unfold sendOf at 1. simpl. by rewrite lookup_insert_eq.
    + intros c Hc. unfold sendOf. simpl. by rewrite lookup_insert_ne.
Qed.

Lemma offer_all roomId msg (l : list Client) (h : Hub) :
  NoDup l → (∀ c, c ∈ l → closed (sendOf h c) = false) →
  ∃ h',
    foldl (fun r client => andThen r (offer roomId msg client)) (Running h) l
      = Running h' ∧
    (∀ c, sendOf h' c = if decide (c ∈ l) then offered msg (sendOf h c) else sendOf h c) ∧
    (∀ r, Rooms h' !! r
          = if decide (r = roomId)
            then (fun room => filter (fun c => ¬ (c ∈ l ∧ isFull h c)) room)
                   <$> Rooms h !! r
            else Rooms h !! r).
Proof.
  revert h. induction l as [|c l IH]; intros h Hnd Hopen.
  - exists h. split; [done|].
    split; [intros c; by rewrite decide_False by apply not_elem_of_nil|].
    intros r. case_decide; [|done]. destruct (Rooms h !! r) as [room|]; [|done].
    simpl. f_equal. apply set_eq. intros c. rewrite elem_of_filter.
    split; [|by intros [_ ?]]. intros Hin. split; [|done].
    intros [Hnil _]. by apply not_elem_of_nil in Hnil.
  - apply NoDup_cons in Hnd as [Hc Hnd]. simpl.
    assert (∃ h1, offer roomId msg c h = Running h1 ∧
                  (∀ c', sendOf h1 c' = if decide (c = c') then offered msg (sendOf h c)
                                        else sendOf h c') ∧
                  (∀ r, Rooms h1 !! r
                        = if decide (r = roomId)
                          then (fun room => filter (fun c' => ¬ (c' = c ∧ isFull h c)) room)
                                 <$> Rooms h !! r
                          else Rooms h !! r)) as (h1 & Hoffer & Hsend1 & Hrooms1).
    { unfold offer, offered, closeSend, isFull.
      rewrite (Hopen c) by left. destruct h as [rooms sends].
      case_bool_decide as Hroom; simpl.
      - eexists. split; [reflexivity|]. split.
        + intros c'. by apply sendOf_insert.
        + intros r. simpl. case_decide; [|done].
          destruct (rooms !! r) as [room|]; [|done]. simpl. f_equal.
          apply set_eq. intros c'. rewrite elem_of_filter. split; [|by intros [_ ?]].
          intros Hin. split; [|done]. intros [_ Hfull]. lia.
      - eexists. split; [reflexivity|]. split.
        + intros c'. by apply sendOf_insert.
        + intros r. simpl. destruct (decide (r = roomId)) as [->|Hr].
          * rewrite lookup_alter_eq. destruct (rooms !! roomId) as [room|]; [|done].
            simpl. f_equal. apply set_eq. intros c'.
            rewrite elem_of_filter, elem_of_difference, elem_of_singleton.
            split.
            -- intros [Hin Hne]. split; [|done]. by intros [-> _].
            -- intros [Hno Hin]. split; [done|]. intros ->. apply Hno.
               split; [done|]. lia.
          * by rewrite lookup_alter_ne. }
    rewrite Hoffer.
    destruct (IH h1 Hnd) as (h' & Hfold & Hsend & Hrooms).
    { intros c' Hc'. rewrite Hsend1. rewrite decide_False by (by intros <-).
      apply Hopen. by right. }
    exists h'. split; [done|]. split.
    + intros c'. rewrite Hsend, Hsend1.
      destruct (decide (c = c')) as [<-|Hne].
      * rewrite decide_False by done. by rewrite decide_True by left.
      * destruct (decide (c' ∈ l)).
        -- by rewrite decide_True by (by right).
        -- rewrite decide_False; [done|]. by intros [?|?]%elem_of_cons.
    + intros r. rewrite Hrooms, Hrooms1. case_decide; [|done].
      destruct (Rooms h !! r) as [room|]; [|done]. simpl. f_equal.
      apply set_eq. intros c'. rewrite !elem_of_filter. unfold isFull.
      rewrite Hsend1. destruct (decide (c = c')) as [<-|Hne].
      * split.
        -- intros (_ & Hno & Hin). split; [|done]. intros [_ Hfull]. by apply Hno.
        -- intros [Hno Hin]. split_and!; [by intros [? _]| |done].
           intros [_ Hfull]. apply Hno. split; [left|done].
      * split.
        -- intros (Hno1 & _ & Hin). split; [|done]. intros [Hl Hfull].
           apply Hno1. split; [|done]. apply elem_of_cons in Hl as [->|?]; done.
        -- intros [Hno Hin]. split_and!; [|by intros [-> _]|done].
           intros [Hl Hfull]. apply Hno. split; [by right|done].
Qed.

Lemma memberOrder_elem room c : c ∈ memberOrder room ↔ c ∈ room.
Proof using memberOrder_perm. by rewrite memberOrder_perm, elem_of_elements. Qed.

Lemma memberOrder_NoDup room : NoDup (memberOrder room).
Proof using memberOrder_perm. rewrite memberOrder_perm. apply NoDup_elements. Qed.

(** X25: a broadcast to a room whose members all have an open channel
    does not panic.  Every member whose channel has space gets the message
    behind those already waiting and stays in the room; every member whose
    channel is full gets nothing, has its channel closed and is taken out
    of the room; no client outside the room and no other room is touched,
    and the entry of the room remains even when the room is emptied. *)
Theorem broadcast_spec (roomId : UUID) (msg : string) (h : Hub) :
  (∀ c, c ∈ default ∅ (Rooms h !! roomId) → closed (sendOf h c) = false) →
  ∃ h',
    broadcast memberOrder roomId msg h = Running h' ∧
    (∀ c, c ∈ default ∅ (Rooms h !! roomId) → ¬ isFull h c →
          sendOf h' c = {| buffered := buffered (sendOf h c) ++ [msg]; closed := false |} ∧
          c ∈ default ∅ (Rooms h' !! roomId)) ∧
    (∀ c, c ∈ default ∅ (Rooms h !! roomId) → isFull h c →
          sendOf h' c = {| buffered := buffered (sendOf h c); closed := true |} ∧
          c ∉ (default ∅ (Rooms h' !! roomId) : gset Client)) ∧
    (∀ c, c ∉ (default ∅ (Rooms h !! roomId) : gset Client) → sendOf h' c = sendOf h c) ∧
    (∀ c, c ∈ default ∅ (Rooms h' !! roomId) → c ∈ default ∅ (Rooms h !! roomId)) ∧
    (∀ r, r ≠ roomId → Rooms h' !! r = Rooms h !! r) ∧
    (is_Some (Rooms h' !! roomId) ↔ is_Some (Rooms h !! roomId)).
Proof using memberOrder_perm.
  intros Hopen. unfold broadcast.
  destruct (offer_all roomId msg (memberOrder (default ∅ (Rooms h !! roomId))) h)
    as (h' & Hrun & Hsend & Hrooms).
  { apply memberOrder_NoDup. }
  { intros c Hc. apply Hopen. by apply memberOrder_elem. }
  exists h'. split; [done|].
  assert (∀ c, c ∈ default ∅ (Rooms h' !! roomId) ↔
               c ∈ default ∅ (Rooms h !! roomId) ∧ ¬ isFull h c) as Hmem.
  { intros c. rewrite Hrooms, decide_True by done.
    destruct (Rooms h !! roomId) as [room|]; simpl.
    - rewrite elem_of_filter, memberOrder_elem. tauto.
    - split; [by intros ?%not_elem_of_empty|by intros [?%not_elem_of_empty _]]. }
  split; [|split; [|split; [|split; [|split]]]].
  - intros c Hc Hfull. split; [|by apply Hmem].
    rewrite Hsend, decide_True by (by apply memberOrder_elem).
    unfold offered, isFull in *. rewrite bool_decide_eq_true_2; [done|lia].
  - intros c Hc Hfull. split; [|by intros [_ ?]%Hmem].
    rewrite Hsend, decide_True by (by apply memberOrder_elem).
    unfold offered, isFull in *. rewrite bool_decide_eq_false_2; [done|lia].
  - intros c Hc. rewrite Hsend, decide_False; [done|]. by rewrite memberOrder_elem.
  - intros c Hc. by apply Hmem in Hc as [? _].
  - intros r Hr. by rewrite Hrooms, decide_False.
  - rewrite Hrooms, decide_True by done. by rewrite fmap_is_Some.
Qed.

(** X26: when the messages [m1] and then [m2] are broadcast to a room, a
    member whose channel has space for both finds them behind the messages
    it had, in that order. *)
Theorem broadcast_order (roomId : UUID) (m1 m2 : string) (h : Hub) (c : Client) :
  (∀ c', c' ∈ default ∅ (Rooms h !! roomId) → closed (sendOf h c') = false) →
  c ∈ default ∅ (Rooms h !! roomId) →
  (List.length (buffered (sendOf h c)) + 2 ≤ sendCapacity)%nat →
  ∃ h1 h2,
    broadcast memberOrder roomId m1 h = Running h1 ∧
    broadcast memberOrder roomId m2 h1 = Running h2 ∧
    sendOf h2 c = {| buffered := buffered (sendOf h c) ++ [m1; m2]; closed := false |} ∧
    c ∈ default ∅ (Rooms h2 !! roomId).
Proof using memberOrder_perm.
  intros Hopen Hc Hspace.
  destruct (broadcast_spec roomId m1 h Hopen)
    as (h1 & Hb1 & Hsent1 & _ & _ & Hsub1 & _).
  assert (∀ c', c' ∈ default ∅ (Rooms h1 !! roomId) → closed (sendOf h1 c') = false)
    as Hopen1.
  { intros c' Hc'. destruct (decide (isFull h c')) as [Hfull|Hfree].
    - destruct (broadcast_spec roomId m1 h Hopen) as (h1' & Hb1' & _ & Hev & _).
      assert (h1' = h1) as -> by congruence.
      by destruct (Hev c' (Hsub1 c' Hc') Hfull) as [_ ?].
    - by destruct (Hsent1 c' (Hsub1 c' Hc') Hfree) as [-> _]. }
  destruct (Hsent1 c Hc) as [Hs1 Hin1]; [unfold isFull; lia|].
  destruct (broadcast_spec roomId m2 h1 Hopen1) as (h2 & Hb2 & Hsent2 & _).
  destruct (Hsent2 c Hin1) as [Hs2 Hin2].
  { unfold isFull. rewrite Hs1. simpl. rewrite length_app. simpl. lia. }
  exists h1, h2. split; [done|]. split; [done|]. split; [|done].
  rewrite Hs2, Hs1. simpl. by rewrite <- app_assoc.
Qed.

(** X27: a member whose channel is full when a broadcast reaches its room
    is closed and removed by the broadcast, and an Unregister of that
    client arriving next makes the hub panic: the entry of the room is
    still there, so the closed channel is closed again. *)
Theorem unregister_after_eviction (msg : string) (h : Hub) (client : Client) :
  (∀ c, c ∈ default ∅ (Rooms h !! RoomId client) → closed (sendOf h c) = false) →
  client ∈ default ∅ (Rooms h !! RoomId client) →
  isFull h client →
  ∃ h',
    broadcast memberOrder (RoomId client) msg h = Running h' ∧
    (client ∉ (default ∅ (Rooms h' !! RoomId client) : gset Client)) ∧
    unregister client h' = Panic "close of closed channel".
Proof using memberOrder_perm.
  intros Hopen Hc Hfull.
  destruct (broadcast_spec (RoomId client) msg h Hopen)
    as (h' & Hb & _ & Hev & _ & _ & _ & Hentry).
  destruct (Hev client Hc Hfull) as [Hsend Hout].
  exists h'. split; [done|]. split; [done|].
  assert (is_Some (Rooms h' !! RoomId client)) as [room Hroom].
  { apply Hentry. destruct (Rooms h !! RoomId client); [done|].
    by apply not_elem_of_empty in Hc. }
  destruct (unregister_spec client h') as [_ Hknown].
  destruct (Hknown room Hroom) as [Hpanic _]. apply Hpanic. by rewrite Hsend.
Qed.

Lemma register_membersOpen client h :
  membersOpen h → closed (sendOf h client) = false → membersOpen (register client h).
Proof.
  intros Hm Hopen roomId room c. unfold register. simpl.
  change (sendOf {| Rooms := _; Sends := Sends h |} c) with (sendOf h c).
  destruct (decide (RoomId client = roomId)) as [<-|Hne].
  - rewrite lookup_insert_eq. intros [= <-] Hin.
    apply elem_of_union in Hin as [Hin|Hin].
    + by apply elem_of_singleton in Hin as ->.
    + destruct (Rooms h !! RoomId client) as [room|] eqn:Hroom; simpl in Hin.
      * by apply (Hm _ room).
      * by apply not_elem_of_empty in Hin.
  - rewrite lookup_insert_ne by done. apply Hm.
Qed.

Lemma unregister_membersOpen client h :
  membersOpen h →
  match unregister client h with
  | Running h' => membersOpen h'
  | Panic msg => msg = "close of closed channel"
  end.
Proof.
  intros Hm. destruct (unregister_spec client h) as [Hnone Hsome].
  destruct (Rooms h !! RoomId client) as [room|] eqn:Hroom.
  - destruct (Hsome room eq_refl) as [Hclosed Hopen].
    destruct (closed (sendOf h client)) eqn:Hc.
    + by rewrite Hclosed.
    + destruct (Hopen eq_refl) as (h' & -> & Hr & Hother & _ & Hsends).
      intros roomId room' c Hroom' Hin.
      destruct (decide (roomId = RoomId client)) as [->|Hne].
      * rewrite Hr in Hroom'. case_decide; [done|]. injection Hroom' as <-.
        apply elem_of_difference in Hin as [Hin Hnot].
        rewrite Hsends by (by intros ->; apply Hnot, elem_of_singleton).
        by apply (Hm _ room).
      * rewrite Hother in Hroom' by done.
        destruct (Hm _ _ c Hroom' Hin) as [Ho Hrid].
        rewrite Hsends; [done|]. intros ->. done.
  - by rewrite Hnone.
Qed.

Lemma broadcast_membersOpen roomId msg h :
  membersOpen h → ∃ h', broadcast memberOrder roomId msg h = Running h' ∧ membersOpen h'.
Proof using memberOrder_perm.
  intros Hm.
  assert (∀ c, c ∈ default ∅ (Rooms h !! roomId) → closed (sendOf h c) = false) as Hopen.
  { intros c Hc. destruct (Rooms h !! roomId) as [room|] eqn:Hroom; simpl in Hc.
    - by destruct (Hm roomId room c Hroom Hc).
    - by apply not_elem_of_empty in Hc. }
  destruct (broadcast_spec roomId msg h Hopen)
    as (h' & Hb & Hsent & Hev & Hout & Hsub & Hother & _).
  exists h'. split; [done|]. intros r room c Hroom Hin.
  destruct (decide (r = roomId)) as [->|Hne].
  - assert (c ∈ default ∅ (Rooms h' !! roomId)) as Hc' by (by rewrite Hroom).
    pose proof (Hsub c Hc') as Hc.
    split.
    + destruct (decide (isFull h c)) as [Hfull|Hfree].
      * by destruct (Hev c Hc Hfull) as [_ ?].
      * by destruct (Hsent c Hc Hfree) as [-> _].
    + destruct (Rooms h !! roomId) as [room0|] eqn:Hroom0; simpl in Hc.
      * by destruct (Hm roomId room0 c Hroom0 Hc).
      * by apply not_elem_of_empty in Hc.
  - rewrite Hother in Hroom by done.
    destruct (Hm _ _ c Hroom Hin) as [Ho Hrid]. split; [|done].
    rewrite Hout; [done|]. intros Hc.
    destruct (Rooms h !! roomId) as [room0|] eqn:Hroom0; simpl in Hc.
    + destruct (Hm _ _ c Hroom0 Hc) as [_ ?]. congruence.
    + by apply not_elem_of_empty in Hc.
Qed.

(** X28: starting from the empty hub, as long as clients are registered
    with their channel still open, every client the hub holds in a room
    has an open channel and sits in the room of its own id, so a broadcast
    never sends on a closed channel; the one panic the hub can raise is
    the second close of a channel. *)
Theorem hub_members_open (evs : list HubEvent) :
  registersOpen memberOrder evs NewHub →
  match hubRun memberOrder evs NewHub with
  | Running h => membersOpen h
  | Panic msg => msg = "close of closed channel"
  end.
Proof using memberOrder_perm.
  assert (membersOpen NewHub) as Hnew.
  { intros r room c. unfold NewHub. simpl. by rewrite lookup_empty. }
  revert Hnew. generalize NewHub. unfold hubRun.
  induction evs as [|ev evs IH]; intros h Hm Hreg; [done|].
  destruct Hreg as [Hev Hrest]. simpl.
  destruct ev as [client|client|roomId msg]; simpl in *.
  - apply IH; [by apply register_membersOpen|done].
  - pose proof (unregister_membersOpen client h Hm) as Hun.
    destruct (unregister client h) as [h'|msg]; [by apply IH|].
    subst msg. clear. by induction evs.
  - destruct (broadcast_membersOpen roomId msg h Hm) as (h' & Hb & Hm').
    rewrite Hb in *. by apply IH.
Qed.

End HubProperties.

(** ** Worked instances of the further properties *)

Lemma reverseOrder_perm m : reverseOrder m ≡ₚ map_to_list m.
Proof. apply reverse_Permutation. Qed.

Lemma history_orderly : Forall orderly history.
Proof.
  repeat constructor; simpl; try done;
    first [apply canonicalOrder_perm | apply reverseOrder_perm].
Qed.

Lemma history_room :
  servers (steps history NewEngine) !! room = Some historyRoom.
Proof. vm_compute; reflexivity. Qed.

Lemma elementsOrder_perm (s : gset Client) : elements s ≡ₚ elements s.
Proof. done. Qed.

Lemma hubWith_members sends :
  default ∅ (Rooms (hubWith sends) !! room) = {[ client1; client2 ]}.
Proof. unfold hubWith. simpl. by rewrite lookup_singleton_eq. Qed.

Ltac two_players H1 H2 :=
  simpl in H1, H2;
  apply lookup_insert_Some in H1 as [[<- <-]|[? H1]];
  apply lookup_insert_Some in H2 as [[<- <-]|[? H2]];
  try apply lookup_singleton_Some in H1 as [<- <-];
  try apply lookup_singleton_Some in H2 as [<- <-];
  try done.



Lemma LeaveRoom_spec_witness :
  ∃ server',
    LeaveRoom room "c1" aliceIn = (store aliceIn room server', ("A", true)) ∧
    KickPlayer canonicalOrder room 1 aliceIn = (store aliceIn room server', Ok "c1").
Proof.
  destruct (LeaveRoom_spec canonicalOrder canonicalOrder_perm room "c1" aliceIn)
    as [_ Hknown].
  destruct (Hknown (roomRecord {[ "c1" := playerA ]} session0)) as [_ Hplayer].
  - vm_compute; reflexivity.
  - destruct (Hplayer playerA) as (server' & Hleave & _ & _ & _ & _ & _ & Hkick).
    + vm_compute; reflexivity.
    + exists server'. split; [exact Hleave|]. apply Hkick.
      intros k1 k2 p1 p2 H1 H2 _. simpl in H1, H2.
      apply lookup_singleton_Some in H1 as [<- _].
      by apply lookup_singleton_Some in H2 as [<- _].
Defined.



(** A room last read 61 minutes ago is removed by a sweep with an hour as
    the largest age, a room read 30 minutes ago is not. *)
Lemma CleanupOldRooms_spec_witness :
  servers (CleanupOldRooms (61 * Minute) Hour aliceIn) !! room = None ∧
  servers (CleanupOldRooms (30 * Minute) Hour aliceIn) !! room
    = Some (roomRecord {[ "c1" := playerA ]} session0).
Proof.
  split.
  - destruct (CleanupOldRooms_spec (61 * Minute) Hour aliceIn) as (_ & Hin & _).
    + vm_compute. split; discriminate.
    + destruct (Hin room (roomRecord {[ "c1" := playerA ]} session0)) as [_ Hgone].
      * vm_compute; reflexivity.
      * vm_compute. split; discriminate.
      * vm_compute. split; [discriminate|reflexivity].
      * apply Hgone. vm_compute. reflexivity.
  - destruct (CleanupOldRooms_spec (30 * Minute) Hour aliceIn) as (_ & Hin & _).
    + vm_compute. split; discriminate.
    + destruct (Hin room (roomRecord {[ "c1" := playerA ]} session0)) as [Hstays _].
      * vm_compute; reflexivity.
      * vm_compute. split; discriminate.
      * vm_compute. split; [discriminate|reflexivity].
      * apply Hstays. vm_compute. discriminate.
Defined.

Lemma CleanupOldRooms_after_GetServer_witness :
  servers (CleanupOldRooms (90 * Minute) Hour (GetServer (30 * Minute) room aliceIn).1)
    !! room
    = Some (withLastAccess (roomRecord {[ "c1" := playerA ]} session0) (30 * Minute)).
Proof.
  destruct (CleanupOldRooms_after_GetServer (30 * Minute) (90 * Minute) Hour room aliceIn
              (roomRecord {[ "c1" := playerA ]} session0)) as [Hkept _].
  - vm_compute; reflexivity.
  - vm_compute. split; discriminate.
  - vm_compute. split; discriminate.
  - vm_compute. split; discriminate.
  - exact Hkept.
Defined.

Lemma call_other_rooms_witness :
  servers (call canonicalOrder (CallCreateRoom 8%N 3 "S,M,L") voted).1 !! room
    = servers voted !! room.
Proof.
  apply (call_other_rooms canonicalOrder (CallCreateRoom 8%N 3 "S,M,L") voted room).
  vm_compute. discriminate.
Defined.

Lemma call_keeps_room_witness :
  ∃ s', servers (call canonicalOrder (CallKickPlayer room 1) voted).1 !! room = Some s' ∧
        CardSet (CurrentSession s') = ["1"; "2"; "3"; "5"; "8"].
Proof.
  destruct (call_keeps_room canonicalOrder (CallKickPlayer room 1) voted room
              (roomRecord {[ "c1" := playerA; "c2" := playerB ]}
                          (withVotes session0 {[ "1" := "5" ]})))
    as (s' & Hs' & _ & Hcards & _).
  - vm_compute; reflexivity.
  - discriminate.
  - exists s'. split; [exact Hs'|exact Hcards].
Defined.


Lemma players_well_filed_witness :
  uniqueRecovery {[ "c1" := playerA; "c2" := withType playerB Participant ]}.
Proof.
  destruct (players_well_filed history room historyRoom history_orderly history_room) as [_ Hu].
  exact Hu.
Defined.


Lemma publicIds_distinct_witness :
  uniquePublicId {[ "c1" := playerA; "c2" := withType playerB Participant ]}.
Proof.
  destruct (publicIds_distinct history room historyRoom history_orderly) as [_ Hu].
  - vm_compute. discriminate.
  - exact history_room.
  - exact Hu.
Defined.

Lemma call_order_irrelevant_witness :
  call canonicalOrder (CallKickPlayer room 2) voted
    = call reverseOrder (CallKickPlayer room 2) voted.
Proof.
  destruct (call_order_irrelevant canonicalOrder reverseOrder (CallKickPlayer room 2) voted
              canonicalOrder_perm reverseOrder_perm) as [_ Hsame].
  apply Hsame. intros s Hs.
  assert (servers voted !! room
          = Some (roomRecord {[ "c1" := playerA; "c2" := playerB ]}
                             (withVotes session0 {[ "1" := "5" ]}))) as Hroom
    by (vm_compute; reflexivity).
  change (target (CallKickPlayer room 2)) with room in Hs.
  rewrite Hroom in Hs. injection Hs as <-.
  split; intros k1 k2 p1 p2 H1 H2 Heq; two_players H1 H2; discriminate.
Defined.

Lemma Vote_then_UnVote_witness :
  UnVote room "c1" (Vote room "c1" "5" bothIn).1 = (bothIn, None).
Proof.
  destruct (Vote_then_UnVote room "c1" "5" bothIn
              (roomRecord {[ "c1" := playerA; "c2" := playerB ]} session0) playerA)
    as [_ Hback].
  - vm_compute; reflexivity.
  - vm_compute; reflexivity.
  - vm_compute; reflexivity.
  - apply Hback. vm_compute; reflexivity.
Defined.

Lemma JoinRoom_then_LeaveRoom_witness :
  LeaveRoom room "c3" (JoinRoom reverseOrder room carol "C" "c3" Participant voted).1
    = (voted, ("C", true)).
Proof.
  apply (JoinRoom_then_LeaveRoom reverseOrder reverseOrder_perm room carol "C" "c3"
           Participant voted
           (roomRecord {[ "c1" := playerA; "c2" := playerB ]}
                       (withVotes session0 {[ "1" := "5" ]}))).
  - vm_compute; reflexivity.
  - intros k p Hk. simpl in Hk. apply lookup_insert_Some in Hk as [[<- <-]|[? Hk]];
      [|apply lookup_singleton_Some in Hk as [<- <-]]; discriminate.
  - vm_compute; reflexivity.
  - vm_compute; reflexivity.
Defined.

Lemma after_KickPlayer_witness :
  ∃ e', KickPlayer canonicalOrder room 1 voted = (e', Ok "c1") ∧
        Vote room "c1" "8" e' = (e', Some ErrPlayerNotFound).
Proof.
  eexists. split; [vm_compute; reflexivity|].
  eapply (after_KickPlayer canonicalOrder canonicalOrder_perm room 1 voted _
            (roomRecord {[ "c1" := playerA; "c2" := playerB ]}
                        (withVotes session0 {[ "1" := "5" ]})) "c1").
  - vm_compute; reflexivity.
  - vm_compute; reflexivity.
Defined.

Lemma call_keeps_observers_voteless_witness :
  map_Forall (fun _ s => observersVoteless s)
    (servers (call canonicalOrder (CallVote room "c1" "5") bothIn).1).
Proof.
  apply (call_keeps_observers_voteless canonicalOrder (CallVote room "c1" "5") bothIn).
  - apply canonicalOrder_perm.
  - discriminate.
  - intros id s Hs. unfold bothIn, roomWith in Hs. simpl in Hs.
    apply lookup_singleton_Some in Hs as [<- <-].
    intros k1 k2 p1 p2 H1 H2 Heq. two_players H1 H2; discriminate.
  - intros id s Hs. unfold bothIn, roomWith in Hs. simpl in Hs.
    apply lookup_singleton_Some in Hs as [<- <-].
    intros k p _ _. apply lookup_empty.
Defined.

Lemma getPlayerName_spec_witness :
  (getPlayerName 9 room "c1" voted).2 = "A".
Proof.
  destruct (getPlayerName_spec 9 room "c1" voted) as (_ & Hname & _).
  apply (Hname (roomRecord {[ "c1" := playerA; "c2" := playerB ]}
                           (withVotes session0 {[ "1" := "5" ]})) playerA).
  - discriminate.
  - vm_compute; reflexivity.
  - vm_compute; reflexivity.
Defined.


Lemma changeType_keeps_observers_voteless_witness :
  map_Forall (fun _ s => observersVoteless s)
    (servers (changeType 8 9 room "c1" Observer
                (roomWith {[ "c1" := playerA ]} (withVotes session0 {[ "1" := "5" ]})))).
Proof.
  apply changeType_keeps_observers_voteless.
  - intros server Hs. unfold roomWith in Hs. simpl in Hs.
    apply lookup_singleton_Some in Hs as [_ <-]. reflexivity.
  - intros id s Hs. unfold roomWith in Hs. simpl in Hs.
    apply lookup_singleton_Some in Hs as [_ <-].
    intros k p Hk. simpl in Hk. apply lookup_singleton_Some in Hk as [_ <-]. discriminate.
Defined.

Lemma register_spec_witness :
  Rooms (register client2 (register client1 NewHub)) !! room
    = Some {[ client1; client2 ]}.
Proof.
  destruct (register_spec client2 (register client1 NewHub)) as [(members & Hroom & Hmem) _].
  assert (members = {[ client1; client2 ]}) as <-; [|exact Hroom].
  assert (default ∅ (Rooms (register client1 NewHub) !! RoomId client2) = {[ client1 ]})
    as Hbefore by (vm_compute; reflexivity).
  apply set_eq. intros c. rewrite Hmem, Hbefore.
  rewrite elem_of_union, !elem_of_singleton. tauto.
Defined.

Lemma unregister_spec_witness :
  ∃ h', unregister client2 (hubWith ∅) = Running h' ∧
        Rooms h' !! room = Some {[ client1 ]} ∧
        closed (sendOf h' client2) = true.
Proof.
  destruct (unregister_spec client2 (hubWith ∅)) as [_ Hentry].
  destruct (Hentry {[ client1; client2 ]}) as [_ Hopen]; [vm_compute; reflexivity|].
  destruct Hopen as (h' & Hun & Hroom & _ & Hsend & _); [reflexivity|].
  exists h'. split; [exact Hun|]. split; [|by rewrite Hsend].
  change (RoomId client2) with room in Hroom. rewrite Hroom. vm_compute; reflexivity.
Defined.

Lemma broadcast_spec_witness :
  ∃ h', broadcast elements room "hello" (hubWith {[ client2 := fullChan ]}) = Running h' ∧
        buffered (sendOf h' client1) = ["hello"] ∧
        closed (sendOf h' client2) = true.
Proof.
  destruct (broadcast_spec elements elementsOrder_perm room "hello"
              (hubWith {[ client2 := fullChan ]}))
    as (h' & Hb & Hsent & Hevicted & _).
  - intros c Hc. change (RoomId client2) with room in Hc. rewrite hubWith_members in Hc.
    apply elem_of_union in Hc as [Hc|Hc]; apply elem_of_singleton in Hc as ->;
      vm_compute; reflexivity.
  - exists h'. split; [exact Hb|]. split.
    + destruct (Hsent client1) as [-> _]; [| |reflexivity].
      * rewrite hubWith_members. apply elem_of_union. left. by apply elem_of_singleton.
      * unfold isFull. vm_compute. lia.
    + destruct (Hevicted client2) as [-> _]; [| |reflexivity].
      * rewrite hubWith_members. apply elem_of_union. right. by apply elem_of_singleton.
      * unfold isFull. vm_compute. lia.
Defined.

Lemma broadcast_order_witness :
  ∃ h1 h2,
    broadcast elements room "first" (hubWith ∅) = Running h1 ∧
    broadcast elements room "second" h1 = Running h2 ∧
    buffered (sendOf h2 client1) = ["first"; "second"].
Proof.
  destruct (broadcast_order elements elementsOrder_perm room "first" "second"
              (hubWith ∅) client1) as (h1 & h2 & Hb1 & Hb2 & Hsend & _).
  - intros c _. reflexivity.
  - rewrite hubWith_members. apply elem_of_union. left. by apply elem_of_singleton.
  - vm_compute. lia.
  - exists h1, h2. split; [exact Hb1|]. split; [exact Hb2|]. by rewrite Hsend.
Defined.

Lemma unregister_after_eviction_witness :
  ∃ h', broadcast elements room "hello" (hubWith {[ client2 := fullChan ]}) = Running h' ∧
        unregister client2 h' = Panic "close of closed channel".
Proof.
  destruct (unregister_after_eviction elements elementsOrder_perm "hello"
              (hubWith {[ client2 := fullChan ]}) client2) as (h' & Hb & _ & Hpanic).
  - intros c Hc. change (RoomId client2) with room in Hc. rewrite hubWith_members in Hc.
    apply elem_of_union in Hc as [Hc|Hc]; apply elem_of_singleton in Hc as ->;
      vm_compute; reflexivity.
  - change (RoomId client2) with room. rewrite hubWith_members.
    apply elem_of_union. right. by apply elem_of_singleton.
  - unfold isFull. vm_compute. lia.
  - exists h'. split; [exact Hb|exact Hpanic].
Defined.

Lemma hub_members_open_witness :
  membersOpen (register client2 (register client1 NewHub)).
Proof.
  apply (hub_members_open elements elementsOrder_perm [Register client1; Register client2]).
  simpl. repeat split.
Defined.

End engine.
